(** * gosl/opt: multidimensional minimisation by the Fletcher-Reeves-Polak-Ribiere
      conjugate-gradient method ([ConjGrad.Min])

    Shallow embedding of [ConjGrad], [NewConjGrad], [ConjGrad.Min] and
    [ConjGrad.checkJacobian].

    - [float64] is IEEE-754 binary64, embedded as Rocq's primitive [float]
      (round to nearest even, one NaN); products and sums are rounded one by
      one (no fused multiply-add, as on amd64).
    - Go's [int] is a 64-bit two's complement integer: a [Z] with the
      wrap-around of [+] written out ([Int.add]).
    - [la.Vector] is a slice of [float64]: a [list float], read and written by
      index; an index out of range is a run-time panic.
    - [Min] mutates the receiver [o] and the caller's slice [x], and it may
      panic: a state-and-error monad [M] over the memory [Mem]. *)

From Stdlib Require Import Floats ZArith Lia.
From stdpp Require Import base tactics option list.

#[local] Set Warnings "-inexact-float".

(** ** Scalars *)

Abbreviation float64 := float (only parsing).

(** Go's comparison operators on [float64] (all false on NaN). *)
Module Go.
Definition lt (a b : float64) : bool := PrimFloat.ltb a b.   (* a < b  *)
Definition le (a b : float64) : bool := PrimFloat.leb a b.   (* a <= b *)
Definition gt (a b : float64) : bool := PrimFloat.ltb b a.   (* a > b  *)
End Go.

(** Package [math]. *)
Module math.
Definition Abs (a : float64) : float64 := PrimFloat.abs a.
End math.

(** Go's [int]. *)
Module Int.
Definition wrap (z : Z) : Z := ((z + 2 ^ 63) mod 2 ^ 64 - 2 ^ 63)%Z.
Definition add (a b : Z) : Z := wrap (a + b).
Definition max_int : Z := (2 ^ 63 - 1)%Z.
Definition min_int : Z := (- 2 ^ 63)%Z.
End Int.

(** ** Vectors (package [la]) *)

Abbreviation Vector := (list float) (only parsing).

Module utl.
(** Modelled from the spec: [utl.Max] is not in the source file; the spec
    calls it [max].  The larger of two numbers, by Go's [>]: the second
    argument when the comparison is false (also on NaN). *)
Definition Max (a b : float64) : float64 := if Go.gt a b then a else b.
End utl.

Module la.
(** Modelled from the spec: the vector container of package [la] is not in
    the source file.  The spec lists its operations: element access, dot
    product, scaled addition, in-place scale/copy and Euclidean norm. *)

(** [la.NewVector(size)]: [size] zeros. *)
Definition NewVector (size : nat) : list float := replicate size 0%float.

(** [la.VecDot(u, v)]: [res := 0; res += u[i]*v[i]], for vectors of one
    length. *)
Definition VecDot (u v : list float) : float64 :=
  foldl (fun res p => (res + fst p * snd p)%float) 0%float (zip u v).

(** [la.VecAdd(res, α, u, β, v)]: [res[i] := α*u[i] + β*v[i]]; the value
    written to [res]. *)
Definition VecAdd (α : float64) (u : list float) (β : float64) (v : list float)
  : list float :=
  zip_with (fun a b => (α * a + β * b)%float) u v.

(** [o.Apply(α, another)]: [o[i] := α*another[i]]; the value written. *)
Definition Apply (α : float64) (another : list float) : list float :=
  (fun a => (α * a)%float) <$> another.

(** [o.Norm()]: the Euclidean norm. *)
Definition Norm (u : list float) : float64 := PrimFloat.sqrt (VecDot u u).
End la.

(** Go's builtin [copy(dst, src)]: the first [min(len(dst), len(src))] elements
    of [src] go to [dst]; the value of [dst] afterwards. *)
Definition copy (dst src : list float) : list float :=
  take (length dst) src ++ drop (length src) dst.

(** ** Panics and the monad *)

Inductive panic : Type :=
  | FailToConverge (NumIter : Z)       (* chk.Panic("fail to converge after %d iterations\n", o.NumIter) *)
  | JacobianIncorrect (diff : float64) (* chk.Panic("Jacobian function is incorrect. diff = %v\n", diff) *)
  | IndexOutOfRange.                   (* run-time error: index out of range *)

Inductive result (A : Type) : Type :=
  | Ok (a : A)
  | Panic (p : panic).
Arguments Ok {A} a.
Arguments Panic {A} p.

(** A computation over the state [S]: the state is kept when it panics. *)
Definition M (S A : Type) : Type := S -> S * result A.

Definition ret {S A} (a : A) : M S A := fun s => (s, Ok a).

Definition bind {S A B} (c : M S A) (k : A -> M S B) : M S B :=
  fun s => match c s with
           | (s', Ok a) => k a s'
           | (s', Panic p) => (s', Panic p)
           end.

Definition raise {S A} (p : panic) : M S A := fun s => (s, Panic p).
Definition gets {S A} (f : S -> A) : M S A := fun s => (s, Ok (f s)).
Definition modify {S} (f : S -> S) : M S unit := fun s => (f s, Ok tt).

Declare Scope go_scope.
Delimit Scope go_scope with go.
Notation "x <- c ; k" := (bind c (fun x => k))
  (at level 20, c at level 100, k at level 200, only parsing) : go_scope.
Notation "' p <- c ; k" := (bind c (fun p => k))
  (at level 20, p pattern, c at level 100, k at level 200, only parsing) : go_scope.
Notation "c ;; k" := (bind c (fun _ => k))
  (at level 100, k at level 200, only parsing, right associativity) : go_scope.

(** [for j := j0; j < j0+n; j++ { a = body(j, a) }], with the loop-carried
    locals [a]. *)
Fixpoint for_range {S A} (n j : nat) (body : nat -> A -> M S A) (a : A) : M S A :=
  match n with
  | O => ret a
  | Datatypes.S n' => bind (body j a) (for_range n' (Datatypes.S j) body)
  end.

(** ** The collaborators *)

(** Modelled from the spec: [num.DerivCen5(x, h, f)] is not in the source
    file.  The spec's contract: given a scalar function of one real variable,
    a step size and an evaluation point, it returns a central-difference
    derivative estimate.  It is a higher-order function whose argument [f] has
    side effects in [checkJacobian]: it is embedded as the strategy it
    follows, a finite tree that either asks for [f] at a point and goes on
    with the answer, or stops with the estimate. *)
Inductive Deriv : Type :=
  | Done (res : float64)
  | Ask (xk : float64) (k : float64 -> Deriv).

(** Running a strategy against a callback with effects. *)
Fixpoint run_Deriv {S} (d : Deriv) (f : float64 -> M S float64) : M S float64 :=
  match d with
  | Done res => ret res
  | Ask xk k => bind (f xk) (fun y => run_Deriv (k y) f)
  end.

(** The number of evaluations a strategy asks for, against a pure callback. *)
Fixpoint evals_Deriv (d : Deriv) (f : float64 -> float64) : nat :=
  match d with
  | Done _ => O
  | Ask xk k => Datatypes.S (evals_Deriv (k (f xk)) f)
  end.

(** The estimate a strategy returns against a pure callback. *)
Fixpoint value_Deriv (d : Deriv) (f : float64 -> float64) : float64 :=
  match d with
  | Done res => res
  | Ask xk k => value_Deriv (k (f xk)) f
  end.

(** What [Min] is given and what it calls: the objective and its gradient
    (the caller's), the two line searches, the differentiation primitive and
    the history recorder (other files of the repository). *)
Class Collaborators : Type := {
  (** [fun.Sv]: scalar function of vector, y = f({x}) *)
  ffcn : list float -> float64;
  (** [fun.Vv]: [jfcn(g, x)] writes g = dy/d{x} into its first argument; the
      vector written *)
  jfcn : list float -> list float;
  (** [*opt.LineSearch], with its method [Wolfe(x, u, useFold, fold)] that
      moves [x] to the minimum along [u] and returns [(λ, fmin)], and its
      counters *)
  LineSearch : Type;
  Wolfe : LineSearch -> list float -> list float -> bool -> float64 ->
          LineSearch * list float * float64 * float64;
  lines_NumFeval : LineSearch -> Z;
  lines_NumJeval : LineSearch -> Z;
  (** [*num.LineSolver], with [MinUpdateX(x, u)] and its counters *)
  LineSolver : Type;
  MinUpdateX : LineSolver -> list float -> list float ->
               LineSolver * list float * float64 * float64;
  lineb_NumFeval : LineSolver -> Z;
  lineb_NumJeval : LineSolver -> Z;
  (** [num.DerivCen5(x, h, f)] *)
  DerivCen5 : float64 -> float64 -> Deriv;
  (** [*History], [NewHistory(nMaxIt, f0, x0, ffcn)] and [Append(fx, x, u)] *)
  HistoryData : Type;
  NewHistory : Z -> float64 -> list float -> HistoryData;
  Append : HistoryData -> float64 -> list float -> list float -> HistoryData;
}.

(** ** The optimizer *)

Section ConjGrad.
Context `{C : Collaborators}.

(** [type ConjGrad struct]; the fields [ffcn] and [jfcn] are the
    collaborators' ([NewConjGrad] binds them once). *)
Record ConjGrad : Type := {
  MaxIt : Z;                      (* max iterations *)
  Ftol : float64;                 (* tolerance on f({x}) *)
  Gtol : float64;                 (* convergence criterion for the zero gradient test *)
  Verbose : bool;                 (* show messages *)
  History : bool;                 (* save history *)
  UseBrent : bool;                (* use Brent method insted of LineSearch (Wolfe conditions) *)
  UseFRmethod : bool;             (* use Fletcher-Reeves method instead of Polak-Ribiere *)
  CheckJfcn : bool;               (* check Jacobian function at all points during minimization *)
  NumFeval : Z;                   (* number of calls to Ffcn (function evaluations) *)
  NumJeval : Z;                   (* number of calls to Jfcn (Jacobian evaluations) *)
  NumIter : Z;                    (* number of iterations from last call to Solve *)
  Hist : option HistoryData;      (* history of optimization data; nil before the first run with History *)
  size : nat;                     (* problem dimension = len(x); NewVector(size) needs size >= 0 *)
  tiny : float64;                 (* small number to rectify the special case of converging to exactly zero function value *)
  u : list float;                 (* direction vector for line minimization *)
  g : list float;                 (* conjugate direction vector *)
  h : list float;                 (* conjugate direction vector *)
  tmp : list float;               (* auxiliary vector *)
  lines : LineSearch;             (* line search *)
  lineb : LineSolver;             (* line solver wrapping Brent's method *)
}.

(** Assignments to the fields that [Min] and [checkJacobian] write. *)
Definition set_NumFeval (v : Z) (o : ConjGrad) : ConjGrad :=
  {| MaxIt := MaxIt o; Ftol := Ftol o; Gtol := Gtol o; Verbose := Verbose o; History :=
     History o; UseBrent := UseBrent o; UseFRmethod := UseFRmethod o; CheckJfcn :=
     CheckJfcn o; NumFeval := v; NumJeval := NumJeval o; NumIter := NumIter o; Hist :=
     Hist o; size := size o; tiny := tiny o; u := u o; g := g o; h := h o; tmp := tmp o;
     lines := lines o; lineb := lineb o |}.
Definition set_NumJeval (v : Z) (o : ConjGrad) : ConjGrad :=
  {| MaxIt := MaxIt o; Ftol := Ftol o; Gtol := Gtol o; Verbose := Verbose o; History :=
     History o; UseBrent := UseBrent o; UseFRmethod := UseFRmethod o; CheckJfcn :=
     CheckJfcn o; NumFeval := NumFeval o; NumJeval := v; NumIter := NumIter o; Hist :=
     Hist o; size := size o; tiny := tiny o; u := u o; g := g o; h := h o; tmp := tmp o;
     lines := lines o; lineb := lineb o |}.
Definition set_NumIter (v : Z) (o : ConjGrad) : ConjGrad :=
  {| MaxIt := MaxIt o; Ftol := Ftol o; Gtol := Gtol o; Verbose := Verbose o; History :=
     History o; UseBrent := UseBrent o; UseFRmethod := UseFRmethod o; CheckJfcn :=
     CheckJfcn o; NumFeval := NumFeval o; NumJeval := NumJeval o; NumIter := v; Hist :=
     Hist o; size := size o; tiny := tiny o; u := u o; g := g o; h := h o; tmp := tmp o;
     lines := lines o; lineb := lineb o |}.
Definition set_Hist (v : option HistoryData) (o : ConjGrad) : ConjGrad :=
  {| MaxIt := MaxIt o; Ftol := Ftol o; Gtol := Gtol o; Verbose := Verbose o; History :=
     History o; UseBrent := UseBrent o; UseFRmethod := UseFRmethod o; CheckJfcn :=
     CheckJfcn o; NumFeval := NumFeval o; NumJeval := NumJeval o; NumIter := NumIter o;
     Hist := v; size := size o; tiny := tiny o; u := u o; g := g o; h := h o; tmp := tmp
     o; lines := lines o; lineb := lineb o |}.
Definition set_u (v : list float) (o : ConjGrad) : ConjGrad :=
  {| MaxIt := MaxIt o; Ftol := Ftol o; Gtol := Gtol o; Verbose := Verbose o; History :=
     History o; UseBrent := UseBrent o; UseFRmethod := UseFRmethod o; CheckJfcn :=
     CheckJfcn o; NumFeval := NumFeval o; NumJeval := NumJeval o; NumIter := NumIter o;
     Hist := Hist o; size := size o; tiny := tiny o; u := v; g := g o; h := h o; tmp :=
     tmp o; lines := lines o; lineb := lineb o |}.
Definition set_g (v : list float) (o : ConjGrad) : ConjGrad :=
  {| MaxIt := MaxIt o; Ftol := Ftol o; Gtol := Gtol o; Verbose := Verbose o; History :=
     History o; UseBrent := UseBrent o; UseFRmethod := UseFRmethod o; CheckJfcn :=
     CheckJfcn o; NumFeval := NumFeval o; NumJeval := NumJeval o; NumIter := NumIter o;
     Hist := Hist o; size := size o; tiny := tiny o; u := u o; g := v; h := h o; tmp :=
     tmp o; lines := lines o; lineb := lineb o |}.
Definition set_h (v : list float) (o : ConjGrad) : ConjGrad :=
  {| MaxIt := MaxIt o; Ftol := Ftol o; Gtol := Gtol o; Verbose := Verbose o; History :=
     History o; UseBrent := UseBrent o; UseFRmethod := UseFRmethod o; CheckJfcn :=
     CheckJfcn o; NumFeval := NumFeval o; NumJeval := NumJeval o; NumIter := NumIter o;
     Hist := Hist o; size := size o; tiny := tiny o; u := u o; g := g o; h := v; tmp :=
     tmp o; lines := lines o; lineb := lineb o |}.
Definition set_tmp (v : list float) (o : ConjGrad) : ConjGrad :=
  {| MaxIt := MaxIt o; Ftol := Ftol o; Gtol := Gtol o; Verbose := Verbose o; History :=
     History o; UseBrent := UseBrent o; UseFRmethod := UseFRmethod o; CheckJfcn :=
     CheckJfcn o; NumFeval := NumFeval o; NumJeval := NumJeval o; NumIter := NumIter o;
     Hist := Hist o; size := size o; tiny := tiny o; u := u o; g := g o; h := h o; tmp
     := v; lines := lines o; lineb := lineb o |}.
Definition set_lines (v : LineSearch) (o : ConjGrad) : ConjGrad :=
  {| MaxIt := MaxIt o; Ftol := Ftol o; Gtol := Gtol o; Verbose := Verbose o; History :=
     History o; UseBrent := UseBrent o; UseFRmethod := UseFRmethod o; CheckJfcn :=
     CheckJfcn o; NumFeval := NumFeval o; NumJeval := NumJeval o; NumIter := NumIter o;
     Hist := Hist o; size := size o; tiny := tiny o; u := u o; g := g o; h := h o; tmp
     := tmp o; lines := v; lineb := lineb o |}.
Definition set_lineb (v : LineSolver) (o : ConjGrad) : ConjGrad :=
  {| MaxIt := MaxIt o; Ftol := Ftol o; Gtol := Gtol o; Verbose := Verbose o; History :=
     History o; UseBrent := UseBrent o; UseFRmethod := UseFRmethod o; CheckJfcn :=
     CheckJfcn o; NumFeval := NumFeval o; NumJeval := NumJeval o; NumIter := NumIter o;
     Hist := Hist o; size := size o; tiny := tiny o; u := u o; g := g o; h := h o; tmp
     := tmp o; lines := lines o; lineb := v |}.

(** [NewConjGrad(size, ffcn, Jfcn)], given the two line searches that
    [NewLineSearch] and [num.NewLineSolver] return. *)
Definition NewConjGrad (size : nat) (lines : LineSearch) (lineb : LineSolver)
  : ConjGrad :=
  {| MaxIt := 200; Ftol := 1e-8; Gtol := 1e-8;
     Verbose := false; History := false; UseBrent := false;
     UseFRmethod := false; CheckJfcn := false;
     NumFeval := 0; NumJeval := 0; NumIter := 0; Hist := None;
     size := size; tiny := 1e-18;
     u := la.NewVector size; g := la.NewVector size;
     h := la.NewVector size; tmp := la.NewVector size;
     lines := lines; lineb := lineb |}.

(** *** The memory

    [Min] works on two objects: its receiver [o] and the slice [x] of the
    caller.  The log [calls] is not in the Go code: it records, latest first,
    the calls that [Min] itself makes to its collaborators. *)
Inductive call : Type :=
  | CallFfcn (at_x : list float)                  (* o.ffcn(x) *)
  | CallJfcn (at_x : list float)                  (* o.jfcn(o.u, x) *)
  | CallLinesearch (brent : bool) (at_x dir : list float) (fold : float64).

Record Mem : Type := {
  rcv : ConjGrad;          (* the receiver, o *)
  arg : list float;        (* the argument, x *)
  calls : list call;
}.

Definition on_rcv (f : ConjGrad -> ConjGrad) (m : Mem) : Mem :=
  {| rcv := f (rcv m); arg := arg m; calls := calls m |}.
Definition set_arg (v : list float) (m : Mem) : Mem :=
  {| rcv := rcv m; arg := v; calls := calls m |}.
Definition log (c : call) (m : Mem) : Mem :=
  {| rcv := rcv m; arg := arg m; calls := c :: calls m |}.

(** [v[j]] *)
Definition index (v : list float) (j : nat) : M Mem float64 :=
  match v !! j with
  | Some a => ret a
  | None => raise IndexOutOfRange
  end.

(** [v[j] = a], for the vector read by [get] and written by [set] *)
Definition store (get : Mem -> list float) (set : list float -> Mem -> Mem)
    (j : nat) (a : float64) : M Mem unit :=
  fun m => if decide (j < length (get m))
           then (set (<[j := a]> (get m)) m, Ok tt)
           else (m, Panic IndexOutOfRange).

Definition o_u (m : Mem) := u (rcv m).
Definition o_g (m : Mem) := g (rcv m).
Definition o_h (m : Mem) := h (rcv m).
Definition o_tmp (m : Mem) := tmp (rcv m).
Definition store_u := store o_u (fun v => on_rcv (set_u v)).
Definition store_g := store o_g (fun v => on_rcv (set_g v)).
Definition store_h := store o_h (fun v => on_rcv (set_h v)).
Definition store_tmp := store o_tmp (fun v => on_rcv (set_tmp v)).

(** [o.ffcn(x)] *)
Definition call_ffcn (at_x : list float) : M Mem float64 :=
  fun m => (log (CallFfcn at_x) m, Ok (ffcn at_x)).

(** [o.jfcn(o.u, x)] *)
Definition call_jfcn : M Mem unit :=
  fun m => (log (CallJfcn (arg m)) (on_rcv (set_u (jfcn (arg m))) m), Ok tt).

(** The line search that [Min] selects, with the counters [*nfeval] and
    [*nJeval] read after the call:
<<
	linesearch := o.lines.Wolfe
	nfeval := &o.lines.NumFeval
	nJeval := &o.lines.NumJeval
	if o.UseBrent {
		linesearch = func(x, u la.Vector, dum1 bool, dum2 float64) (λ, fmin float64) { return o.lineb.MinUpdateX(x, u) }
		nfeval = &o.lineb.NumFeval
		nJeval = &o.lineb.NumJeval
	}
>> *)
Definition linesearch (useFold : bool) (fold : float64) : M Mem (float64 * float64) :=
  fun m =>
    let o := rcv m in
    if UseBrent o then
      let '(lb, x', lam, fmin) := MinUpdateX (lineb o) (arg m) (u o) in
      (log (CallLinesearch true (arg m) (u o) fold)
         (set_arg x' (on_rcv (set_lineb lb) m)), Ok (lam, fmin))
    else
      let '(ls, x', lam, fmin) := Wolfe (lines o) (arg m) (u o) useFold fold in
      (log (CallLinesearch false (arg m) (u o) fold)
         (set_arg x' (on_rcv (set_lines ls) m)), Ok (lam, fmin)).

Definition nfeval (o : ConjGrad) : Z :=
  if UseBrent o then lineb_NumFeval (lineb o) else lines_NumFeval (lines o).
Definition nJeval (o : ConjGrad) : Z :=
  if UseBrent o then lineb_NumJeval (lineb o) else lines_NumJeval (lines o).

Local Open Scope go_scope.

(** *** [checkJacobian] *)

(** The closure handed to [num.DerivCen5] for the coordinate [k]:
<<
	func(xk float64) float64 {
		copy(o.tmp, x)
		o.tmp[k] = xk
		o.NumFeval++
		return o.ffcn(o.tmp)
	}
>> *)
Definition perturbed (k : nat) (xk : float64) : M Mem float64 :=
  modify (fun m => on_rcv (set_tmp (copy (o_tmp m) (arg m))) m) ;;
  store_tmp k xk ;;
  modify (on_rcv (fun o => set_NumFeval (Int.add (NumFeval o) 1) o)) ;;
  t <- gets o_tmp ;
  call_ffcn t.

Definition tolJ : float64 := 1e-12.

(** [func (o *ConjGrad) checkJacobian(x la.Vector)] *)
Definition checkJacobian : M Mem unit :=
  n <- gets (fun m => size (rcv m)) ;
  for_range n 0 (fun k _ =>
    x <- gets arg ;
    xk <- index x k ;
    dfdxk <- run_Deriv (DerivCen5 xk 1e-3) (perturbed k) ;
    uv <- gets o_u ;
    uk <- index uv k ;
    let diff := math.Abs (uk - dfdxk) in
    if Go.gt diff tolJ then raise (JacobianIncorrect diff) else ret tt) tt.

(** *** [Min] *)

(** The three normal exits of the loop. *)
Inductive exit_point : Type :=
  | ExitZeroGradient    (* exit point # 1: old gradient is exactly zero *)
  | ExitConvergedOnF    (* exit point # 2: converged on f *)
  | ExitConvergedOnG.   (* exit point # 3: converged on dy/dx (new) *)

(** The locals of [Min] that live across iterations. *)
Record locals : Type := {
  fx : float64;
  fold : float64;
  fmin : float64;         (* the named result *)
  lam_hist : float64;
  uhist : list float;
}.

Inductive step : Type :=
  | Return (p : exit_point) (fmin : float64)
  | Continue (l : locals).

(** exit point # 1: [math.Abs(deno) < o.tiny] *)
Definition zero_gradient (o : ConjGrad) (deno : float64) : bool :=
  Go.lt (math.Abs deno) (tiny o).

(** exit point # 2:
    [2.0*math.Abs(fmin-fx) <= o.Ftol*(math.Abs(fmin)+math.Abs(fx)+o.tiny)] *)
Definition converged_on_f (o : ConjGrad) (fmin fx : float64) : bool :=
  Go.le (2 * math.Abs (fmin - fx))
        (Ftol o * (math.Abs fmin + math.Abs fx + tiny o)).

(** The body of the loop that computes [test]:
    [temp = math.Abs(o.u[j]) * utl.Max(math.Abs(x[j]), 1.0) / coef] *)
Definition scaled_gradient_step (coef : float64) (j : nat) (test : float64)
  : M Mem float64 :=
  uv <- gets o_u ;
  uj <- index uv j ;
  x <- gets arg ;
  xj <- index x j ;
  let temp := (math.Abs uj * utl.Max (math.Abs xj) 1 / coef)%float in
  ret (if Go.gt temp test then temp else test).

(** test for convergence on zero gradient *)
Definition scaled_gradient (fx : float64) : M Mem float64 :=
  let coef := utl.Max fx 1 in
  n <- gets (fun m => size (rcv m)) ;
  for_range n 0 (scaled_gradient_step coef) 0%float.

(** compute scaling factor: [nume] *)
Definition numerator : M Mem float64 :=
  o <- gets rcv ;
  if UseFRmethod o then
    ret (la.VecDot (u o) (u o))
  else
    modify (on_rcv (fun o => set_tmp (la.VecAdd 1 (u o) 1 (g o)) o)) ;;
    t <- gets o_tmp ;
    let nume := la.VecDot t (u o) in
    ret (utl.Max nume 0).

(** update directions: one trip of the loop *)
Definition update_direction (γ : float64) (j : nat) (_ : unit) : M Mem unit :=
  uv <- gets o_u ; uj <- index uv j ;
  store_g j (- uj) ;;
  gv <- gets o_g ; gj <- index gv j ;
  hv <- gets o_h ; hj <- index hv j ;
  store_u j (gj + γ * hj) ;;
  uv' <- gets o_u ; uj' <- index uv' j ;
  store_h j uj'.

(** line minimization, with the counters, [fold] and the history:
<<
		λhist, fmin = linesearch(x, o.u, true, fold) // x := x @ min
		o.NumFeval += *nfeval
		o.NumJeval += *nJeval
		if o.History {
			uhist.Apply(λhist, o.u)
			o.Hist.Append(fmin, x, uhist)
		}
>>
    [o.Hist] is the history that [Min] made before the loop. *)
Definition line_minimization (l : locals) : M Mem (float64 * float64 * list float) :=
  '(lam_hist, fmin) <- linesearch true (fold l) ;
  modify (on_rcv (fun o => set_NumFeval (Int.add (NumFeval o) (nfeval o)) o)) ;;
  modify (on_rcv (fun o => set_NumJeval (Int.add (NumJeval o) (nJeval o)) o)) ;;
  o <- gets rcv ;
  if History o then
    let uhist := la.Apply lam_hist (u o) in
    x <- gets arg ;
    modify (on_rcv (set_Hist ((fun hist => Append hist fmin x uhist) <$> Hist o))) ;;
    ret (lam_hist, fmin, uhist)
  else ret (lam_hist, fmin, uhist l).

(** update gradient dy/dx, and check Jacobian @ x:
<<
		o.jfcn(o.u, x) // u := dy/dx
		o.NumJeval++
		if o.CheckJfcn {
			o.checkJacobian(x)
		}
>> *)
Definition update_gradient : M Mem unit :=
  call_jfcn ;;
  modify (on_rcv (fun o => set_NumJeval (Int.add (NumJeval o) 1) o)) ;;
  o <- gets rcv ;
  if CheckJfcn o then checkJacobian else ret tt.

(** update directions: [γ = nume / deno] and the loop *)
Definition update_directions (nume deno : float64) : M Mem unit :=
  let γ := (nume / deno)%float in
  n <- gets (fun m => size (rcv m)) ;
  for_range n 0 (update_direction γ) tt.

(** One trip of the loop [for o.NumIter = 0; o.NumIter < o.MaxIt; o.NumIter++]. *)
Definition iteration (l : locals) : M Mem step :=
  o <- gets rcv ;
  (* exit point # 1: old gradient is exactly zero *)
  let deno := la.VecDot (g o) (g o) in
  if zero_gradient o deno then ret (Return ExitZeroGradient (fmin l)) else
  (* line minimization *)
  '(lam_hist, fmin, uhist) <- line_minimization l ;
  (* update fold *)
  let fold := fx l in
  (* exit point # 2: converged on f *)
  o <- gets rcv ;
  if converged_on_f o fmin (fx l) then ret (Return ExitConvergedOnF fmin) else
  (* update fx and gradient dy/dx *)
  let fx := fmin in
  update_gradient ;;
  (* test for convergence on zero gradient *)
  test <- scaled_gradient fx ;
  (* exit point # 3: converged on dy/dx (new) *)
  o <- gets rcv ;
  if Go.lt test (Gtol o) then ret (Return ExitConvergedOnG fmin) else
  (* compute scaling factor *)
  nume <- numerator ;
  (* update directions *)
  update_directions nume deno ;;
  ret (Continue {| fx := fx; fold := fold; fmin := fmin;
                   lam_hist := lam_hist; uhist := uhist |}).

(** The loop, for the [n] trips that are left; [o.NumIter] counts up and
    [o.MaxIt] is not assigned, so that [Min] enters it with
    [n = MaxIt - 0] (no trip when [MaxIt <= 0]). *)
Fixpoint iterations (n : nat) (l : locals) : M Mem (exit_point * float64) :=
  match n with
  | O =>
      (* did not converge *)
      it <- gets (fun m => NumIter (rcv m)) ;
      raise (FailToConverge it)
  | Datatypes.S n' =>
      s <- iteration l ;
      match s with
      | Return p fmin => ret (p, fmin)
      | Continue l' =>
          modify (on_rcv (fun o => set_NumIter (Int.add (NumIter o) 1) o)) ;;
          iterations n' l'
      end
  end.

(** initializations: one trip of the loop *)
Definition negate (j : nat) (_ : unit) : M Mem unit :=
  uv <- gets o_u ; uj <- index uv j ;
  store_u j (- uj) ;;
  uv' <- gets o_u ; uj' <- index uv' j ;
  store_g j uj' ;;
  store_h j uj'.

(** [Min] up to the loop: the locals it enters the loop with. *)
Definition initializations : M Mem locals :=
  x <- gets arg ;
  fx <- call_ffcn x ;                              (* fx := f(x) *)
  call_jfcn ;;                                     (* u := dy/dx *)
  n <- gets (fun m => size (rcv m)) ;
  for_range n 0 negate tt ;;
  modify (on_rcv (set_NumFeval 1)) ;;
  modify (on_rcv (set_NumJeval 1)) ;;
  let fmin := fx in
  (* history *)
  o <- gets rcv ;
  uhist <- (if History o then
              x <- gets arg ;
              modify (on_rcv (set_Hist (Some (NewHistory (MaxIt o) fmin x)))) ;;
              ret (la.NewVector (size o))
            else ret []) ;
  (* estimate old f(x) *)
  uv <- gets o_u ;
  let fold := (fx + la.Norm uv / 2)%float in
  ret {| fx := fx; fold := fold; fmin := fmin; lam_hist := 0; uhist := uhist |}.

(** [Min] with the exit it returns at. *)
Definition Min_exit : M Mem (exit_point * float64) :=
  l <- initializations ;
  modify (on_rcv (set_NumIter 0)) ;;
  mx <- gets (fun m => MaxIt (rcv m)) ;
  iterations (Z.to_nat mx) l.

(** [func (o *ConjGrad) Min(x la.Vector) (fmin float64)] *)
Definition Min : M Mem float64 :=
  r <- Min_exit ;
  ret (snd r).

End ConjGrad.

(** * Notions used in the statements *)

(** The vector of which the first [i] places hold [new] and the others
    [old]: a loop that writes [v[j]] for [j = 0, 1, ...] is here after [i]
    trips. *)
Definition splice {A} (i : nat) (new old : list A) : list A :=
  take i new ++ drop i old.

Arguments splice {A} i new old : simpl never.

Section notions.
Context `{C : Collaborators}.

(** What a Go callee can do to a slice it is handed: write its elements, not
    change its length. *)
Record lawful : Prop := {
  jfcn_length : forall x, length (jfcn x) = length x;
  Wolfe_length : forall ls x dir b f, length (Wolfe ls x dir b f).1.1.2 = length x;
  MinUpdateX_length : forall lb x dir, length (MinUpdateX lb x dir).1.1.2 = length x;
}.

(** The memory [Min] may be called in: an optimizer whose vectors have the
    length [NewConjGrad] gave them, a point [x] of that length, and a Go
    [int] in [MaxIt]. *)
Record well_formed (m : Mem) : Prop := {
  wf_x : length (arg m) = size (rcv m);
  wf_u : length (u (rcv m)) = size (rcv m);
  wf_g : length (g (rcv m)) = size (rcv m);
  wf_h : length (h (rcv m)) = size (rcv m);
  wf_tmp : length (tmp (rcv m)) = size (rcv m);
  wf_MaxIt : (MaxIt (rcv m) <= Int.max_int)%Z;
}.

(** [o.NumIter++] *)
Definition next_iteration (m : Mem) : Mem :=
  on_rcv (fun o => set_NumIter (Int.add (NumIter o) 1) o) m.

(** [at_loop_test m0 k m l]: [Min], called in the memory [m0], comes to the
    test [o.NumIter < o.MaxIt] of its loop for the time [k] (counting from 0)
    in the memory [m], with the locals [l]. *)
Inductive at_loop_test (m0 : Mem) : nat -> Mem -> locals -> Prop :=
  | loop_test_first m1 l :
      initializations m0 = (m1, Ok l) ->
      at_loop_test m0 0 (on_rcv (set_NumIter 0) m1) l
  | loop_test_next k m l m' l' :
      at_loop_test m0 k m l ->
      (NumIter (rcv m) < MaxIt (rcv m))%Z ->
      iteration l m = (m', Ok (Continue l')) ->
      at_loop_test m0 (Datatypes.S k) (next_iteration m') l'.

(** [enters m0 k m l]: the test holds, [Min] enters trip [k] of the loop. *)
Definition enters (m0 : Mem) (k : nat) (m : Mem) (l : locals) : Prop :=
  at_loop_test m0 k m l /\ (NumIter (rcv m) < MaxIt (rcv m))%Z.

(** The memory after the [i] first trips of the loop of the
    initializations. *)
Definition negated (i : nat) (m : Mem) : Mem :=
  let v := PrimFloat.opp <$> u (rcv m) in
  on_rcv (fun o => set_h (splice i v (h o))
                     (set_g (splice i v (g o)) (set_u (splice i v (u o)) o))) m.

Definition after_initializations (m : Mem) : Mem :=
  let x := arg m in
  let v := PrimFloat.opp <$> jfcn x in
  log (CallJfcn x) (log (CallFfcn x)
    (on_rcv (fun o =>
       let o' := set_NumJeval 1 (set_NumFeval 1 (set_h v (set_g v (set_u v o)))) in
       if History o then set_Hist (Some (NewHistory (MaxIt o) (ffcn x) x)) o' else o') m)).

Definition initial_locals (m : Mem) : locals :=
  let x := arg m in
  let v := PrimFloat.opp <$> jfcn x in
  {| fx := ffcn x; fold := (ffcn x + la.Norm v / 2)%float; fmin := ffcn x;
     lam_hist := 0;
     uhist := if History (rcv m) then la.NewVector (size (rcv m)) else [] |}.

(** [stable R c]: the computation [c] takes a memory to one that [R] relates
    to it, whether it returns or panics. *)
Definition stable {A} (R : Mem -> Mem -> Prop) (c : M Mem A) : Prop :=
  forall m, R m (c m).1.

(** What [Min] never changes: the configuration of the optimizer, its
    dimension and the lengths of the vectors; [o.NumIter] belongs to the loop
    statement, not to its body. *)
Record frame (m m' : Mem) : Prop := {
  fr_MaxIt : MaxIt (rcv m') = MaxIt (rcv m);
  fr_Ftol : Ftol (rcv m') = Ftol (rcv m);
  fr_Gtol : Gtol (rcv m') = Gtol (rcv m);
  fr_History : History (rcv m') = History (rcv m);
  fr_UseBrent : UseBrent (rcv m') = UseBrent (rcv m);
  fr_UseFRmethod : UseFRmethod (rcv m') = UseFRmethod (rcv m);
  fr_CheckJfcn : CheckJfcn (rcv m') = CheckJfcn (rcv m);
  fr_size : size (rcv m') = size (rcv m);
  fr_tiny : tiny (rcv m') = tiny (rcv m);
  fr_NumIter : NumIter (rcv m') = NumIter (rcv m);
  fr_x : length (arg m') = length (arg m);
  fr_u : length (u (rcv m')) = length (u (rcv m));
  fr_g : length (g (rcv m')) = length (g (rcv m));
  fr_h : length (h (rcv m')) = length (h (rcv m));
  fr_tmp : length (tmp (rcv m')) = length (tmp (rcv m));
}.

(** [kept m m']: from a well-formed memory [m], what [frame] says. *)
Definition kept (m m' : Mem) : Prop := well_formed m -> frame m m'.

(** [same_config m0 m]: [m] has the configuration and the sizes of [m0];
    [o.NumIter] is left out. *)
Definition same_config (m0 m : Mem) : Prop :=
  frame m0 (on_rcv (set_NumIter (NumIter (rcv m0))) m).

(** The trips that [Min] allows: [MaxIt], or none when [MaxIt <= 0]. *)
Definition trips (m : Mem) : nat := Z.to_nat (MaxIt (rcv m)).

(** [temp] in the loop that computes [test], and [test] after the loop over
    the pairs [(o.u[j], x[j])]. *)
Definition scaled_temp (coef uj xj : float64) : float64 :=
  (math.Abs uj * utl.Max (math.Abs xj) 1 / coef)%float.

Definition scaled_max (coef : float64) (uv x : list float) : float64 :=
  foldl (fun test p =>
           let temp := scaled_temp coef (fst p) (snd p) in
           if Go.gt temp test then temp else test)
        0%float (zip uv x).

(** The new direction [u[j] = g[j] + γ*h[j]], and the memory after the [i]
    first trips of the loop that updates the directions. *)
Definition conjugate (γ : float64) (gv hv : list float) : list float :=
  zip_with (fun gj hj => (gj + γ * hj)%float) gv hv.

Definition directed (γ : float64) (i : nat) (m : Mem) : Mem :=
  let gv := PrimFloat.opp <$> u (rcv m) in
  let uv := conjugate γ gv (h (rcv m)) in
  on_rcv (fun o => set_h (splice i uv (h o))
                     (set_u (splice i uv (u o)) (set_g (splice i gv (g o)) o))) m.

(** What the line minimization leaves as it was: the three vectors of the
    directions; and what the check of the Jacobian leaves as it was: these
    and the point [x]. *)
Record same_vectors (m m' : Mem) : Prop := {
  sv_u : u (rcv m') = u (rcv m);
  sv_g : g (rcv m') = g (rcv m);
  sv_h : h (rcv m') = h (rcv m);
}.

Record same_point (m m' : Mem) : Prop := {
  sp_vectors : same_vectors m m';
  sp_x : arg m' = arg m;
}.

(** [nume], and the optimizer after the update of the directions with
    [γ = nume / deno]. *)
Definition scaling_numerator (o : ConjGrad) : float64 :=
  if UseFRmethod o then la.VecDot (u o) (u o)
  else utl.Max (la.VecDot (la.VecAdd 1 (u o) 1 (g o)) (u o)) 0.

Definition direction_update (deno : float64) (o : ConjGrad) : ConjGrad :=
  let γ := (scaling_numerator o / deno)%float in
  let gv := PrimFloat.opp <$> u o in
  let uv := conjugate γ gv (h o) in
  set_h uv (set_u uv (set_g gv
    (if UseFRmethod o then o else set_tmp (la.VecAdd 1 (u o) 1 (g o)) o))).

(** What holds of the directions whenever [Min] comes to the test of its
    loop: [o.g] is minus the gradient at the point [x] (the comment of the Go
    code on the signs notwithstanding), and [o.h] is the direction [o.u]. *)
Record directions_ok (m : Mem) : Prop := {
  dir_g : g (rcv m) = PrimFloat.opp <$> jfcn (arg m);
  dir_h : h (rcv m) = u (rcv m);
}.

(** [epsilon], the small number that [NewConjGrad] puts in [o.tiny]. *)
Definition epsilon : float64 := 1e-18.

(** [checkJacobian], read as a function of the gradient [uv] in [o.u] and of
    the point [x]: the objective along the coordinate [k], the estimate
    [dfdxk] of its derivative, [diff], and the first [diff] above [tolJ]
    among the coordinates [k, k+1, ..., k+n-1]. *)
Definition along (x : list float) (k : nat) (xk : float64) : float64 :=
  ffcn (<[k := xk]> x).

Definition dfdx (x : list float) (k : nat) : float64 :=
  value_Deriv (DerivCen5 (default 0%float (x !! k)) 1e-3) (along x k).

Definition diff_at (uv x : list float) (k : nat) : float64 :=
  math.Abs (default 0%float (uv !! k) - dfdx x k).

Fixpoint first_incorrect (uv x : list float) (n k : nat) : option float64 :=
  match n with
  | O => None
  | Datatypes.S n' =>
      if Go.gt (diff_at uv x k) tolJ then Some (diff_at uv x k)
      else first_incorrect uv x n' (Datatypes.S k)
  end.

(** The body of the loop of [checkJacobian]. *)
Definition check_coordinate (k : nat) (_ : unit) : M Mem unit :=
  bind (gets arg) (fun x => bind (index x k) (fun xk =>
  bind (run_Deriv (DerivCen5 xk 1e-3) (perturbed k)) (fun dfdxk =>
  bind (gets o_u) (fun uv => bind (index uv k) (fun uk =>
  let diff := math.Abs (uk - dfdxk) in
  if Go.gt diff tolJ then raise (JacobianIncorrect diff) else ret tt))))).

(** [reset a b c m]: the memory [m] with other numbers in the three counters
    of the optimizer. *)
Definition with_counters (a b c : Z) (m : Mem) : Mem :=
  on_rcv (fun o => set_NumFeval a (set_NumJeval b (set_NumIter c o))) m.

(** What only the line minimization and the history block may change: the
    two line-search objects and [o.Hist], with the two flags that select
    them. *)
Record quiet (m m' : Mem) : Prop := {
  q_History : History (rcv m') = History (rcv m);
  q_UseBrent : UseBrent (rcv m') = UseBrent (rcv m);
  q_Hist : Hist (rcv m') = Hist (rcv m);
  q_lines : lines (rcv m') = lines (rcv m);
  q_lineb : lineb (rcv m') = lineb (rcv m);
}.

(** [untouched m m']: from [m] to [m'] the line-search object that
    [o.UseBrent] does not select is as it was, and so is [o.Hist] when
    [o.History] is off. *)
Record untouched (m m' : Mem) : Prop := {
  un_History : History (rcv m') = History (rcv m);
  un_UseBrent : UseBrent (rcv m') = UseBrent (rcv m);
  un_Hist : History (rcv m) = false -> Hist (rcv m') = Hist (rcv m);
  un_lines : UseBrent (rcv m) = true -> lines (rcv m') = lines (rcv m);
  un_lineb : UseBrent (rcv m) = false -> lineb (rcv m') = lineb (rcv m);
}.

(** The history after the records [es] (value, point, step), the oldest
    first, were appended to [h0] with [o.Hist.Append(fmin, x, uhist)]. *)
Definition append_all (h0 : HistoryData)
    (es : list (float64 * Vector * Vector)) : HistoryData :=
  foldl (fun h e => Append h e.1.1 e.1.2 e.2) h0 es.

(** Every line search leaves its two counters between 0 and [B]. *)
Definition counts_within (B : Z) : Prop :=
  (forall ls x d b f,
     let ls' := (Wolfe ls x d b f).1.1.1 in
     (0 <= lines_NumFeval ls' <= B)%Z /\ (0 <= lines_NumJeval ls' <= B)%Z) /\
  (forall lb x d,
     let lb' := (MinUpdateX lb x d).1.1.1 in
     (0 <= lineb_NumFeval lb' <= B)%Z /\ (0 <= lineb_NumJeval lb' <= B)%Z).

(** [checkJacobian] counts function evaluations only. *)
Definition same_NumJeval (m m' : Mem) : Prop :=
  NumJeval (rcv m') = NumJeval (rcv m).

(** [evaluated m m']: from [m] to [m'], with [o.tmp] as long as [x], the
    only calls are evaluations of the objective at points that differ from
    [x] in one coordinate at most, [o.NumFeval] has counted each of them
    (in Go's [int]), and [x] is as it was. *)
Definition evaluated (m m' : Mem) : Prop :=
  length (tmp (rcv m)) = length (arg m) ->
  length (tmp (rcv m')) = length (arg m') /\ arg m' = arg m /\
  exists new,
    calls m' = new ++ calls m /\
    Forall (fun c => exists k xk, c = CallFfcn (<[k := xk]> (arg m))) new /\
    Int.wrap (NumFeval (rcv m')) =
      Int.wrap (NumFeval (rcv m) + Z.of_nat (length new)).

End notions.

(** ** A problem to run [Min] on

    The scenario of the specification: f(x, y) = (x-3)² + (y+1)², with the
    gradient (2(x-3), 2(y+1)); in other dimensions the centre goes on with
    zeros. *)
Module Demo.

Definition centre (i : nat) : float64 :=
  match i with
  | 0 => 3
  | 1 => -1
  | _ => 0
  end%float.

Definition objective (x : list float) : float64 :=
  foldl PrimFloat.add 0%float
    (imap (fun i a => ((a - centre i) * (a - centre i))%float) x).

Definition gradient (x : list float) : list float :=
  imap (fun i a => (2 * (a - centre i))%float) x.

(** A line search that takes the step [lam] along the direction: it moves
    [x] to [x + lam*dir] and reports the evaluations [counts]. *)
Definition advance (lam : float64) (x dir : list float) : list float :=
  imap (fun i a => (a + lam * default 0 (dir !! i))%float) x.

Definition search (f : list float -> float64) (lam : float64) (counts : Z * Z)
    (x dir : list float) : Z * Z * list float * float64 * float64 :=
  (counts, advance lam x dir, lam, f (advance lam x dir)).

(** A central difference with 5 points, of which the middle one is not
    used: f(x-h), f(x+h), f(x-h/2), f(x+h/2). *)
Definition central5 (x h : float64) : Deriv :=
  Ask (x - h) (fun fm1 =>
  Ask (x + h) (fun fp1 =>
  Ask (x - h / 2) (fun fmh =>
  Ask (x + h / 2) (fun fph =>
    let r3 := 0.5 * (fp1 - fm1) in
    let r5 := (4 / 3) * (fph - fmh) - (1 / 3) * r3 in
    Done (r5 / h)))))%float.

(** The collaborators, for an objective [f] with the gradient [j], and line
    searches of step [lam] that report [counts]. *)
Definition collaborators (f : list float -> float64)
    (j : list float -> list float) (lam : float64) (counts : Z * Z)
  : Collaborators :=
  {| ffcn := f;
     jfcn := j;
     LineSearch := Z * Z;
     Wolfe := fun _ x dir _ _ => search f lam counts x dir;
     lines_NumFeval := fst;
     lines_NumJeval := snd;
     LineSolver := Z * Z;
     MinUpdateX := fun _ x dir => search f lam counts x dir;
     lineb_NumFeval := fst;
     lineb_NumJeval := snd;
     DerivCen5 := central5;
     HistoryData := list (float * list float * list float);
     NewHistory := fun _ f0 x0 => [(f0, x0, [])];
     Append := fun hist fx x dir => (fx, x, dir) :: hist |}.

(** The quadratic, with the exact line search for steepest descent
    ([lam = 1/2]) or a short one. *)
Definition exact : Collaborators := collaborators objective gradient 0.5 (2, 1)%Z.
Definition short : Collaborators := collaborators objective gradient 0.25 (2, 1)%Z.

(** A line search that does not move. *)
Definition stuck : Collaborators := collaborators objective gradient 0 (2, 1)%Z.

(** A gradient function that is off by 1 in each component. *)
Definition off_by_one (x : list float) : list float :=
  (fun d => (d + 1)%float) <$> gradient x.

Definition wrong : Collaborators := collaborators objective off_by_one 0.25 (2, 1)%Z.

(** A gradient function that gives NaN in each component. *)
Definition undefined (x : list float) : list float := (fun _ => nan) <$> x.

Definition nans : Collaborators := collaborators objective undefined 0.25 (2, 1)%Z.

(** [NewConjGrad(size, ffcn, Jfcn)] and a call [o.Min(x)]. *)
Definition optimizer `{C : Collaborators} (new : LineSearch * LineSolver)
    (size : nat) : ConjGrad :=
  NewConjGrad size (fst new) (snd new).

Definition call `{C : Collaborators} (o : ConjGrad) (x : list float) : Mem :=
  {| rcv := o; arg := x; calls := [] |}.

(** Assignments to the public fields of the configuration. *)
Definition with_MaxIt `{C : Collaborators} (v : Z) (o : ConjGrad) : ConjGrad :=
  {| MaxIt := v; Ftol := Ftol o; Gtol := Gtol o; Verbose := Verbose o;
     History := History o; UseBrent := UseBrent o; UseFRmethod := UseFRmethod o;
     CheckJfcn := CheckJfcn o; NumFeval := NumFeval o; NumJeval := NumJeval o;
     NumIter := NumIter o; Hist := Hist o; size := size o; tiny := tiny o;
     u := u o; g := g o; h := h o; tmp := tmp o; lines := lines o;
     lineb := lineb o |}.

Definition with_CheckJfcn `{C : Collaborators} (v : bool) (o : ConjGrad) : ConjGrad :=
  {| MaxIt := MaxIt o; Ftol := Ftol o; Gtol := Gtol o; Verbose := Verbose o;
     History := History o; UseBrent := UseBrent o; UseFRmethod := UseFRmethod o;
     CheckJfcn := v; NumFeval := NumFeval o; NumJeval := NumJeval o;
     NumIter := NumIter o; Hist := Hist o; size := size o; tiny := tiny o;
     u := u o; g := g o; h := h o; tmp := tmp o; lines := lines o;
     lineb := lineb o |}.

Definition with_History `{C : Collaborators} (v : bool) (o : ConjGrad) : ConjGrad :=
  {| MaxIt := MaxIt o; Ftol := Ftol o; Gtol := Gtol o; Verbose := Verbose o;
     History := v; UseBrent := UseBrent o; UseFRmethod := UseFRmethod o;
     CheckJfcn := CheckJfcn o; NumFeval := NumFeval o; NumJeval := NumJeval o;
     NumIter := NumIter o; Hist := Hist o; size := size o; tiny := tiny o;
     u := u o; g := g o; h := h o; tmp := tmp o; lines := lines o;
     lineb := lineb o |}.

Definition with_Gtol `{C : Collaborators} (v : float64) (o : ConjGrad) : ConjGrad :=
  {| MaxIt := MaxIt o; Ftol := Ftol o; Gtol := v; Verbose := Verbose o;
     History := History o; UseBrent := UseBrent o; UseFRmethod := UseFRmethod o;
     CheckJfcn := CheckJfcn o; NumFeval := NumFeval o; NumJeval := NumJeval o;
     NumIter := NumIter o; Hist := Hist o; size := size o; tiny := tiny o;
     u := u o; g := g o; h := h o; tmp := tmp o; lines := lines o;
     lineb := lineb o |}.

(** The memory of a call [o.Min(x)], for a new optimizer of the dimension
    of [x] with [o.MaxIt = v]. *)
Definition start (C : Collaborators) (new : LineSearch * LineSolver) (v : Z)
    (x : list float) : Mem :=
  call (with_MaxIt v (optimizer new (length x))) x.
End Demo.

(** * Properties *)

(** ** Lists written index by index *)

Section splice.
Context {A : Type}.
Implicit Types new old : list A.

Lemma splice_0 new old : splice 0 new old = old.
Proof. reflexivity. Qed.

Lemma splice_all n new old :
  length new = n -> length old = n -> splice n new old = new.
Proof.
  intros Hn Ho. unfold splice.
  rewrite drop_ge, app_nil_r by lia. apply take_ge. lia.
Qed.

Lemma length_splice i new old :
  length new = length old -> length (splice i new old) = length old.
Proof.
  intros Hlen. unfold splice.
  rewrite length_app, length_take, length_drop. lia.
Qed.

Lemma lookup_splice_old i new old :
  length new = length old -> splice i new old !! i = old !! i.
Proof.
  intros Hlen. unfold splice.
  destruct (decide (i < length old)) as [Hi|Hi].
  - rewrite lookup_app_r by (rewrite length_take; lia).
    rewrite length_take, lookup_drop. f_equal. lia.
  - rewrite (lookup_ge_None_2 old) by lia.
    apply lookup_ge_None_2.
    rewrite length_app, length_take, length_drop. lia.
Qed.

Lemma lookup_splice_new i new old :
  i < length new -> splice (S i) new old !! i = new !! i.
Proof.
  intros Hi. unfold splice.
  rewrite lookup_app_l by (rewrite length_take; lia).
  apply lookup_take_lt. lia.
Qed.

Lemma insert_splice i new old a :
  length new = length old -> new !! i = Some a ->
  <[i := a]> (splice i new old) = splice (S i) new old.
Proof.
  intros Hlen Ha. unfold splice.
  pose proof (lookup_lt_Some _ _ _ Ha) as Hi.
  rewrite insert_app_r_alt by (rewrite length_take; lia).
  rewrite length_take, Nat.min_l, Nat.sub_diag by lia.
  rewrite (take_S_r _ _ _ Ha), <- app_assoc. f_equal.
  destruct (drop i old) as [|b rest] eqn:Hd.
  - apply (f_equal length) in Hd. rewrite length_drop in Hd. simpl in Hd. lia.
  - simpl. f_equal.
    change rest with (drop 1 (b :: rest)). rewrite <- Hd, drop_drop.
    f_equal. lia.
Qed.

End splice.

(** ** Facts of binary64 arithmetic

    From the specification of the primitive floats ([SpecFloat], through
    [Prim2SF]). *)

Section floats.
Local Open Scope float_scope.

Lemma SFcompare_refl x : x <> S754_nan -> SFcompare x x = Some Eq.
Proof.
  destruct x as [s|s| |s m e]; intros H; try done; simpl.
  - destruct s; reflexivity.
  - rewrite Z.compare_refl, Pos.compare_cont_refl. destruct s; reflexivity.
Qed.

Lemma SFcompare_antisym x y :
  SFcompare y x = option_map CompOpp (SFcompare x y).
Proof.
  destruct x as [s|s| |s m e], y as [s'|s'| |s' m' e']; simpl;
    try reflexivity; try (destruct s; reflexivity); try (destruct s'; reflexivity);
    try (destruct s, s'; reflexivity).
  assert (Pos.compare_cont Eq m' m = CompOpp (Pos.compare_cont Eq m m')) as Hm.
  { symmetry. apply (Pos.compare_cont_antisym m m' Eq). }
  destruct s, s'; try reflexivity; rewrite (Z.compare_antisym e e');
    destruct (e ?= e')%Z; simpl; try reflexivity;
    rewrite Hm; try rewrite CompOpp_involutive; reflexivity.
Qed.

Lemma is_nan_spec a : is_nan a = true <-> Prim2SF a = S754_nan.
Proof.
  unfold is_nan. rewrite FloatAxioms.eqb_spec. unfold SFeqb.
  destruct (Prim2SF a) as [s|s| |s m e] eqn:E.
  - simpl. split; done.
  - destruct s; simpl; split; done.
  - simpl. split; done.
  - rewrite SFcompare_refl by done. simpl. split; done.
Qed.

Lemma is_nan_abs a : is_nan (abs a) = is_nan a.
Proof.
  apply eq_true_iff_eq. rewrite !is_nan_spec, abs_spec.
  destruct (Prim2SF a); simpl; split; done.
Qed.

(** On numbers, [a < b] fails only when [b <= a]. *)
Lemma not_lt_le a b :
  is_nan a = false -> is_nan b = false -> (a <? b) = false -> (b <=? a) = true.
Proof.
  intros Ha Hb. rewrite ltb_spec, leb_spec. unfold SFltb, SFleb.
  rewrite (SFcompare_antisym (Prim2SF a) (Prim2SF b)).
  assert (Prim2SF a <> S754_nan) as Ha'.
  { intros E. apply is_nan_spec in E. congruence. }
  assert (Prim2SF b <> S754_nan) as Hb'.
  { intros E. apply is_nan_spec in E. congruence. }
  destruct (Prim2SF a) as [s|s| |s m e], (Prim2SF b) as [s'|s'| |s' m' e'];
    try done; simpl; try (destruct s; done); try (destruct s'; done);
    try (destruct s, s'; done).
  destruct s, s'; try done; destruct (e ?= e')%Z; try done;
    destruct (Pos.compare_cont Eq m m'); done.
Qed.

Lemma mul_opp_opp a b : (- a) * (- b) = a * b.
Proof.
  apply Prim2SF_inj. rewrite !mul_spec, !opp_spec.
  destruct (Prim2SF a) as [sa|sa| |sa ma ea], (Prim2SF b) as [sb|sb| |sb mb eb];
    simpl; try reflexivity; destruct sa, sb; reflexivity.
Qed.

Lemma VecDot_opp_opp v w :
  la.VecDot (PrimFloat.opp <$> v) (PrimFloat.opp <$> w) = la.VecDot v w.
Proof.
  unfold la.VecDot. generalize 0. revert w.
  induction v as [|a v IH]; intros [|b w] acc; try reflexivity.
  simpl. rewrite mul_opp_opp. apply IH.
Qed.

End floats.

Section float_order.
Local Open Scope float_scope.

(** [SFcompare] orders the numbers: what is not above [b] is below whatever
    [b] is below. *)
Lemma SFcompare_le_lt_trans a b c :
  SFcompare a b = Some Lt \/ SFcompare a b = Some Eq ->
  SFcompare b c = Some Lt ->
  SFcompare a c = Some Lt.
Proof.
  destruct b as [sb|sb| |sb mb eb], c as [sc|sc| |sc mc ec]; simpl;
    intros H1 H2; try done; try (destruct sb; done); try (destruct sc; done);
    try (destruct sb, sc; done).
  all: destruct a as [sa|sa| |sa ma ea]; simpl in *;
    try (destruct H1; done); try (destruct sa; done);
    try (destruct sb; destruct H1; done);
    try (destruct sa, sb; destruct H1; done);
    try (destruct sa, sc; try done; destruct sb; destruct H1; done).
  all: change (Pos.compare_cont Eq) with Pos.compare in *.
  all: destruct sa, sb, sc; try done; try (destruct H1; done).
  all: destruct (Z.compare_spec ea eb), (Z.compare_spec eb ec),
         (Z.compare_spec ea ec); try done; try lia; try (destruct H1; done).
  all: destruct (Pos.compare_spec ma mb), (Pos.compare_spec mb mc),
         (Pos.compare_spec ma mc); try done; try lia; destruct H1; done.
Qed.

End float_order.

Section float_max.
Local Open Scope float_scope.

Lemma ltb_irrefl a : (a <? a) = false.
Proof.
  rewrite ltb_spec. unfold SFltb.
  destruct (Prim2SF a) as [s|s| |s m e] eqn:E; simpl; try done.
  - destruct s; done.
  - rewrite Z.compare_refl, Pos.compare_cont_refl. destruct s; done.
Qed.

(** Raising [t] to [t'] keeps below it what was not above [t]. *)
Lemma not_gt_after_raise t t' a :
  Go.gt a t = false -> Go.gt t' t = true -> Go.gt a t' = false.
Proof.
  unfold Go.gt. rewrite !ltb_spec. unfold SFltb. intros Ha Ht.
  destruct (SFcompare (Prim2SF t) (Prim2SF t')) as [[]|] eqn:E1; try done.
  destruct (SFcompare (Prim2SF t') (Prim2SF a)) as [[]|] eqn:E2; try done.
  rewrite (SFcompare_le_lt_trans _ _ _ (or_introl E1) E2) in Ha. done.
Qed.

(** A comparison with NaN is false. *)
Lemma gt_nan_l a t : is_nan a = true -> Go.gt a t = false.
Proof.
  intros H. apply is_nan_spec in H. unfold Go.gt. rewrite ltb_spec.
  unfold SFltb. rewrite H. destruct (Prim2SF t); done.
Qed.

End float_max.

Section run.
Context `{C : Collaborators}.

Lemma for_range_inv {S A} (I : nat -> A -> S -> Prop) (body : nat -> A -> M S A)
    (n j : nat) (a : A) (s : S) :
  I j a s ->
  (forall i a s, j <= i < j + n -> I i a s ->
     exists a' s', body i a s = (s', Ok a') /\ I (Datatypes.S i) a' s') ->
  exists a' s', for_range n j body a s = (s', Ok a') /\ I (j + n) a' s'.
Proof.
  revert j a s. induction n as [|n IH]; intros j a s HI Hstep.
  - exists a, s. rewrite Nat.add_0_r. done.
  - destruct (Hstep j a s) as (a' & s' & Hb & HI'); [lia|done|].
    destruct (IH (Datatypes.S j) a' s' HI') as (a'' & s'' & Hr & HI'').
    { intros i ? ? ? ?. apply Hstep; [lia|done]. }
    exists a'', s''. split.
    + simpl. unfold bind. rewrite Hb. done.
    + replace (j + Datatypes.S n) with (Datatypes.S j + n) by lia. done.
Qed.

Lemma index_Some (v : list float) j a (m : Mem) :
  v !! j = Some a -> index v j m = (m, Ok a).
Proof. intros H. unfold index. rewrite H. done. Qed.

Lemma store_lt get set j a (m : Mem) :
  j < length (get m) -> store get set j a m = (set (<[j := a]> (get m)) m, Ok tt).
Proof. intros H. unfold store. case_decide; [done|lia]. Qed.

Lemma negate_step n i m0 :
  length (u (rcv m0)) = n -> length (g (rcv m0)) = n -> length (h (rcv m0)) = n ->
  i < n ->
  negate i tt (negated i m0) = (negated (Datatypes.S i) m0, Ok tt).
Proof.
  intros Hu Hg Hh Hi.
  destruct m0 as [o x cs]. destruct o. cbn in *.
  assert (exists ui, u0 !! i = Some ui) as [ui Hui].
  { apply lookup_lt_is_Some. lia. }
  assert (length (opp <$> u0) = n) as Hv by (rewrite length_fmap; done).
  assert ((opp <$> u0) !! i = Some (- ui)%float) as Hvi.
  { rewrite list_lookup_fmap, Hui. done. }
  unfold negate, bind, gets, negated, store_u, store_g, store_h, o_u, o_g, o_h. cbn.
  rewrite (index_Some _ _ ui) by (rewrite lookup_splice_old by lia; done).
  rewrite store_lt by (cbn; rewrite length_splice; lia). cbn.
  rewrite insert_splice by (done || lia).
  rewrite (index_Some _ _ (- ui)%float) by (rewrite lookup_splice_new by lia; done).
  rewrite store_lt by (cbn; rewrite length_splice; lia). cbn.
  rewrite insert_splice by (done || lia).
  rewrite store_lt by (cbn; rewrite length_splice; lia). cbn.
  rewrite insert_splice by (done || lia).
  reflexivity.
Qed.

Lemma negate_loop n m :
  length (u (rcv m)) = n -> length (g (rcv m)) = n -> length (h (rcv m)) = n ->
  for_range n 0 negate tt m =
    (on_rcv (fun o => let v := PrimFloat.opp <$> u o in
                      set_h v (set_g v (set_u v o))) m, Ok tt).
Proof.
  intros Hu Hg Hh.
  destruct (for_range_inv (fun i _ s => s = negated i m) negate n 0 tt m)
    as ([] & s' & Hr & ->).
  - destruct m as [o x cs]; destruct o; reflexivity.
  - intros i [] s Hi ->. exists tt, (negated (Datatypes.S i) m).
    split; [|done]. apply (negate_step n); try done. lia.
  - rewrite Hr. f_equal. unfold negated, on_rcv. cbn.
    rewrite !splice_all by (rewrite ?length_fmap; done).
    done.
Qed.

Lemma initializations_spec m :
  lawful -> well_formed m ->
  initializations m = (after_initializations m, Ok (initial_locals m)).
Proof.
  intros L W. destruct W.
  unfold initializations, bind, gets, call_ffcn, call_jfcn, modify.
  cbn [fst snd rcv arg calls log on_rcv size set_u].
  rewrite (negate_loop (size (rcv m)));
    cbn [rcv arg calls log on_rcv u g h set_u]; rewrite ?jfcn_length; try done.
  unfold after_initializations, initial_locals.
  destruct m as [o x cs]; destruct o.
  destruct History0; lazy; reflexivity.
Qed.

Section stable.
Context {A B : Type} (R : Mem -> Mem -> Prop) `{!PreOrder R}.

Lemma stable_ret (a : A) : stable R (ret a).
Proof. intros m. simpl. reflexivity. Qed.

Lemma stable_raise (p : panic) : stable R (raise (A := A) p).
Proof. intros m. simpl. reflexivity. Qed.

Lemma stable_gets (f : Mem -> A) : stable R (gets f).
Proof. intros m. simpl. reflexivity. Qed.

Lemma stable_modify (f : Mem -> Mem) : (forall m, R m (f m)) -> stable R (modify f).
Proof. intros H m. simpl. apply H. Qed.

Lemma stable_bind (c : M Mem A) (k : A -> M Mem B) :
  stable R c -> (forall a, stable R (k a)) -> stable R (bind c k).
Proof.
  intros Hc Hk m. unfold bind. specialize (Hc m).
  destruct (c m) as [m' [a|p]]; simpl in *; [|done].
  etrans; [exact Hc|]. apply Hk.
Qed.

End stable.

Lemma stable_for_range {A} (R : Mem -> Mem -> Prop) `{!PreOrder R}
    (body : nat -> A -> M Mem A) n j a :
  (forall i a, stable R (body i a)) -> stable R (for_range n j body a).
Proof.
  intros Hb. revert j a. induction n as [|n IH]; intros j a; simpl.
  - apply stable_ret; done.
  - apply stable_bind; [done|apply Hb|]. intros a'. apply IH.
Qed.

Lemma stable_index (R : Mem -> Mem -> Prop) `{!PreOrder R} (v : list float) j :
  stable R (index v j).
Proof. intros m. unfold index. destruct (v !! j); simpl; reflexivity. Qed.

Lemma stable_store (R : Mem -> Mem -> Prop) `{!PreOrder R} get set j a :
  (forall v m, length v = length (get m) -> R m (set v m)) ->
  stable R (store get set j a).
Proof.
  intros H m. unfold store. case_decide; simpl; [|reflexivity].
  apply H. apply length_insert.
Qed.

Lemma stable_run_Deriv (R : Mem -> Mem -> Prop) `{!PreOrder R} d f :
  (forall xk, stable R (f xk)) -> stable R (run_Deriv d f).
Proof.
  intros Hf. induction d as [res|xk k IH]; simpl.
  - apply stable_ret; done.
  - apply stable_bind; [done|apply Hf|]. intros y. apply IH.
Qed.

#[local] Instance frame_preorder : PreOrder frame.
Proof.
  split.
  - intros m. split; reflexivity.
  - intros m1 m2 m3 [] []. split; congruence.
Qed.

Lemma well_formed_frame m m' : well_formed m -> frame m m' -> well_formed m'.
Proof. intros [] []. split; congruence. Qed.

#[local] Instance kept_preorder : PreOrder kept.
Proof.
  split.
  - intros m _. reflexivity.
  - intros m1 m2 m3 H12 H23 W. etrans; [exact (H12 W)|].
    apply H23. eapply well_formed_frame; [exact W|exact (H12 W)].
Qed.

Ltac stable_step :=
  lazymatch goal with
  | |- stable _ (ret _) => apply stable_ret; try typeclasses eauto
  | |- stable _ (raise _) => apply stable_raise; try typeclasses eauto
  | |- stable _ (gets _) => apply stable_gets; try typeclasses eauto
  | |- stable _ (index _ _) => apply stable_index; try typeclasses eauto
  | |- stable _ (bind _ _) => apply stable_bind; [try typeclasses eauto| |intros ?]
  | |- stable _ (for_range _ _ _ _) =>
      apply stable_for_range; [try typeclasses eauto|intros ? ?]
  | |- stable _ (run_Deriv _ _) =>
      apply stable_run_Deriv; [try typeclasses eauto|intros ?]
  | |- stable _ (if ?b then _ else _) => destruct b
  | |- stable _ (match ?p with _ => _ end) => destruct p
  end.

Lemma kept_on_rcv (f : ConjGrad -> ConjGrad) :
  (forall o, MaxIt (f o) = MaxIt o /\ Ftol (f o) = Ftol o /\ Gtol (f o) = Gtol o /\
             History (f o) = History o /\ UseBrent (f o) = UseBrent o /\
             UseFRmethod (f o) = UseFRmethod o /\ CheckJfcn (f o) = CheckJfcn o /\
             size (f o) = size o /\ tiny (f o) = tiny o /\ NumIter (f o) = NumIter o /\
             u (f o) = u o /\ g (f o) = g o /\ h (f o) = h o /\ tmp (f o) = tmp o) ->
  forall m, kept m (on_rcv f m).
Proof.
  intros H m _. destruct (H (rcv m)) as (?&?&?&?&?&?&?&?&?&?&?&?&?&?).
  split; simpl; congruence.
Qed.

Lemma kept_counters : 
  (forall v, stable kept (modify (on_rcv (set_NumFeval v)))) /\
  (forall v, stable kept (modify (on_rcv (set_NumJeval v)))) /\
  (forall v, stable kept (modify (on_rcv (set_Hist v)))).
Proof.
  repeat split; intros v; apply stable_modify; apply kept_on_rcv; intros o;
    repeat split.
Qed.

Lemma kept_store_u j a : stable kept (store_u j a).
Proof.
  apply stable_store; [typeclasses eauto|]. intros v m Hv _.
  split; simpl; try done.
Qed.

Lemma kept_store_g j a : stable kept (store_g j a).
Proof.
  apply stable_store; [typeclasses eauto|]. intros v m Hv _.
  split; simpl; try done.
Qed.

Lemma kept_store_h j a : stable kept (store_h j a).
Proof.
  apply stable_store; [typeclasses eauto|]. intros v m Hv _.
  split; simpl; try done.
Qed.

Lemma kept_store_tmp j a : stable kept (store_tmp j a).
Proof.
  apply stable_store; [typeclasses eauto|]. intros v m Hv _.
  split; simpl; try done.
Qed.

Lemma kept_call_ffcn x : stable kept (call_ffcn x).
Proof. intros m _. split; reflexivity. Qed.

Lemma kept_call_jfcn : lawful -> stable kept call_jfcn.
Proof.
  intros L m W. split; simpl; try reflexivity.
  rewrite jfcn_length by done. destruct W. congruence.
Qed.

Lemma kept_linesearch b fold : lawful -> stable kept (linesearch b fold).
Proof.
  intros L m W. unfold linesearch.
  destruct (UseBrent (rcv m)).
  - pose proof (MinUpdateX_length L (lineb (rcv m)) (arg m) (u (rcv m))) as Hl.
    destruct (MinUpdateX _ _ _) as [[[lb x'] lam] fm]. split; simpl; done.
  - pose proof (Wolfe_length L (lines (rcv m)) (arg m) (u (rcv m)) b fold) as Hl.
    destruct (Wolfe _ _ _ _ _) as [[[ls x'] lam] fm]. split; simpl; done.
Qed.

Ltac kept_prim :=
  first [ apply kept_store_u | apply kept_store_g | apply kept_store_h
        | apply kept_store_tmp | apply kept_call_ffcn
        | apply kept_call_jfcn; assumption
        | apply kept_linesearch; assumption
        | apply (proj1 kept_counters) | apply (proj1 (proj2 kept_counters))
        | apply (proj2 (proj2 kept_counters)) ].

Ltac kept_auto := repeat first [ stable_step | kept_prim ].

Lemma kept_bump_NumFeval (d : ConjGrad -> Z) :
  stable kept (modify (on_rcv (fun o => set_NumFeval (Int.add (NumFeval o) (d o)) o))).
Proof. apply stable_modify, kept_on_rcv. intros o. repeat split. Qed.

Lemma kept_bump_NumJeval (d : ConjGrad -> Z) :
  stable kept (modify (on_rcv (fun o => set_NumJeval (Int.add (NumJeval o) (d o)) o))).
Proof. apply stable_modify, kept_on_rcv. intros o. repeat split. Qed.

Lemma length_copy (dst src : list float) : length (copy dst src) = length dst.
Proof.
  unfold copy. rewrite length_app, length_take, length_drop. lia.
Qed.

Lemma kept_perturbed k xk : stable kept (perturbed k xk).
Proof.
  unfold perturbed. kept_auto.
  - apply stable_modify. intros m _. split; simpl; try done.
    apply length_copy.
  - apply (kept_bump_NumFeval (fun _ => 1%Z)).
Qed.

Lemma kept_checkJacobian : stable kept checkJacobian.
Proof.
  unfold checkJacobian. kept_auto. apply kept_perturbed.
Qed.

Lemma kept_line_minimization l : lawful -> stable kept (line_minimization l).
Proof.
  intros L. unfold line_minimization. kept_auto.
  - apply kept_bump_NumFeval.
  - apply kept_bump_NumJeval.
Qed.

Lemma kept_update_gradient : lawful -> stable kept update_gradient.
Proof.
  intros L. unfold update_gradient. kept_auto.
  - apply (kept_bump_NumJeval (fun _ => 1%Z)).
  - apply kept_checkJacobian.
Qed.

Lemma kept_scaled_gradient fx : stable kept (scaled_gradient fx).
Proof. unfold scaled_gradient, scaled_gradient_step. kept_auto. Qed.

Lemma length_VecAdd a v b w n :
  length v = n -> length w = n -> length (la.VecAdd a v b w) = n.
Proof. intros Hv Hw. unfold la.VecAdd. rewrite length_zip_with. lia. Qed.

Lemma kept_numerator : stable kept numerator.
Proof.
  unfold numerator. kept_auto.
  apply stable_modify. intros m W. destruct W.
  split; simpl; try done.
  rewrite (length_VecAdd _ _ _ _ (size (rcv m))); done.
Qed.

Lemma kept_update_directions nume deno : stable kept (update_directions nume deno).
Proof. unfold update_directions, update_direction. kept_auto. Qed.

Lemma kept_iteration l : lawful -> stable kept (iteration l).
Proof.
  intros L. unfold iteration. kept_auto.
  - apply kept_line_minimization; done.
  - apply kept_update_gradient; done.
  - apply kept_scaled_gradient.
  - apply kept_numerator.
  - apply kept_update_directions.
Qed.

Lemma wrap_small z : (Int.min_int <= z <= Int.max_int)%Z -> Int.wrap z = z.
Proof.
  unfold Int.wrap, Int.min_int, Int.max_int. intros H.
  rewrite Z.mod_small by lia. lia.
Qed.

Lemma well_formed_set_NumIter v m :
  well_formed m -> well_formed (on_rcv (set_NumIter v) m).
Proof. intros []. split; done. Qed.

Lemma frame_after_initializations m :
  lawful -> well_formed m -> frame m (after_initializations m).
Proof.
  intros L W. destruct W.
  assert (length (opp <$> jfcn (arg m)) = size (rcv m)) as Hv.
  { rewrite length_fmap, jfcn_length; done. }
  unfold after_initializations.
  destruct m as [o x cs]; destruct o; cbn in *.
  destruct History0; split; cbn; congruence.
Qed.

Lemma at_loop_test_inv m0 k m l :
  lawful -> well_formed m0 -> at_loop_test m0 k m l ->
  well_formed m /\ same_config m0 m /\ NumIter (rcv m) = Z.of_nat k /\
  k <= trips m0 /\ Min_exit m0 = iterations (trips m0 - k) l m.
Proof.
  intros L W0 H. induction H as [m1 l Hi|k m l m' l' H IH Hlt Hit].
  - rewrite initializations_spec in Hi by done.
    injection Hi as <- <-.
    pose proof (frame_after_initializations m0 L W0) as F.
    refine (conj _ (conj _ (conj _ (conj _ _)))).
    + apply well_formed_set_NumIter. eapply well_formed_frame; done.
    + unfold same_config. destruct F. split; cbn in *; congruence.
    + reflexivity.
    + lia.
    + unfold Min_exit, bind. rewrite initializations_spec by done.
      rewrite Nat.sub_0_r. unfold trips. rewrite <- (fr_MaxIt _ _ F). reflexivity.
  - destruct IH as (W & S & Hk & Hle & HM).
    pose proof (kept_iteration l L m W) as F. rewrite Hit in F. simpl in F.
    assert (MaxIt (rcv m) = MaxIt (rcv m0)) as HMx by (destruct S; done).
    assert (Z.of_nat k < MaxIt (rcv m0))%Z as Hk' by lia.
    assert (k < trips m0) as Hk'' by (unfold trips; lia).
    assert (NumIter (rcv (next_iteration m')) = Z.of_nat (Datatypes.S k)) as HN.
    { cbn. rewrite (fr_NumIter _ _ F), Hk. unfold Int.add.
      destruct W0. rewrite wrap_small; unfold Int.min_int, Int.max_int in *; lia. }
    refine (conj _ (conj _ (conj _ (conj _ _)))).
    + apply well_formed_set_NumIter. eapply well_formed_frame; done.
    + unfold same_config in *. destruct S, F. split; cbn in *; congruence.
    + done.
    + lia.
    + rewrite HM. replace (trips m0 - k) with (Datatypes.S (trips m0 - Datatypes.S k)) by lia.
      simpl. unfold bind at 1. rewrite Hit. reflexivity.
Qed.

Lemma enters_inv m0 k m l :
  lawful -> well_formed m0 -> enters m0 k m l ->
  (Z.of_nat k < MaxIt (rcv m0))%Z /\ well_formed m /\ same_config m0 m /\
  NumIter (rcv m) = Z.of_nat k /\ Min_exit m0 = iterations (trips m0 - k) l m.
Proof.
  intros L W [H Hlt].
  destruct (at_loop_test_inv _ _ _ _ L W H) as (W' & S & Hk & Hle & HM).
  assert (MaxIt (rcv m) = MaxIt (rcv m0)) as HMx by (destruct S; done).
  split; [lia|]. split; [done|]. split; [done|]. split; done.
Qed.

(** C10: with [MaxIt <= 0], [Min] evaluates the objective and the gradient at
    [x] once each and nothing else (the log of its calls), enters no trip of
    the loop, and panics with "fail to converge after 0 iterations" -- for
    every [x], a stationary point included. *)
Theorem Min_without_trips m :
  lawful -> well_formed m -> (MaxIt (rcv m) <= 0)%Z ->
  exists m',
    Min m = (m', Panic (FailToConverge 0)) /\
    calls m' = CallJfcn (arg m) :: CallFfcn (arg m) :: calls m /\
    NumFeval (rcv m') = 1%Z /\ NumJeval (rcv m') = 1%Z /\
    (forall k mk l, ~ enters m k mk l).
Proof.
  intros L W Hmax.
  exists (on_rcv (set_NumIter 0) (after_initializations m)).
  pose proof (frame_after_initializations m L W) as F.
  split; [|split; [|split; [|split]]].
  - unfold Min, Min_exit, bind. rewrite initializations_spec by done.
    unfold modify, gets.
    replace (Z.to_nat _) with 0%nat; [reflexivity|].
    change (MaxIt (rcv (on_rcv (set_NumIter 0) (after_initializations m))))
      with (MaxIt (rcv (after_initializations m))).
    rewrite (fr_MaxIt _ _ F). lia.
  - reflexivity.
  - unfold after_initializations. simpl. destruct (History (rcv m)); reflexivity.
  - unfold after_initializations. simpl. destruct (History (rcv m)); reflexivity.
  - intros k mk l H. apply enters_inv in H as (Hk & _); [lia|done|done].
Qed.

Lemma scaled_gradient_spec fx m :
  length (u (rcv m)) = size (rcv m) -> length (arg m) = size (rcv m) ->
  scaled_gradient fx m =
    (m, Ok (scaled_max (utl.Max fx 1) (u (rcv m)) (arg m))).
Proof.
  intros Hu Hx. unfold scaled_gradient, bind, gets. cbn.
  set (coef := utl.Max fx 1). set (n := size (rcv m)).
  set (f := fun test (p : float * float) =>
              let temp := scaled_temp coef (fst p) (snd p) in
              if Go.gt temp test then temp else test).
  destruct (for_range_inv
              (fun i test s => s = m /\ test = foldl f 0%float (take i (zip (u (rcv m)) (arg m))))
              (scaled_gradient_step coef) n 0 0%float m)
    as (test & s' & Hr & -> & ->).
  - done.
  - intros i test s Hi [-> ->].
    assert (is_Some (u (rcv m) !! i)) as [ui Hui] by (apply lookup_lt_is_Some; lia).
    assert (is_Some (arg m !! i)) as [xi Hxi] by (apply lookup_lt_is_Some; lia).
    eexists _, m. split.
    + unfold scaled_gradient_step, bind, gets, o_u. cbn.
      rewrite (index_Some _ _ ui) by done. rewrite (index_Some _ _ xi) by done.
      reflexivity.
    + split; [done|].
      assert (zip (u (rcv m)) (arg m) !! i = Some (ui, xi)) as Hz.
      { rewrite lookup_zip_with, Hui, Hxi. done. }
      rewrite (take_S_r _ _ _ Hz), foldl_app. reflexivity.
  - rewrite Hr. f_equal. f_equal. unfold scaled_max. f_equal.
    apply take_ge. rewrite length_zip_with. lia.
Qed.

Arguments conjugate : simpl never.

Lemma update_direction_step γ n i m0 :
  length (u (rcv m0)) = n -> length (g (rcv m0)) = n -> length (h (rcv m0)) = n ->
  i < n ->
  update_direction γ i tt (directed γ i m0) = (directed γ (Datatypes.S i) m0, Ok tt).
Proof.
  intros Hu Hg Hh Hi.
  destruct m0 as [o x cs]. destruct o. cbn in *.
  assert (exists ui, u0 !! i = Some ui) as [ui Hui] by (apply lookup_lt_is_Some; lia).
  assert (exists hi, h0 !! i = Some hi) as [hi Hhi] by (apply lookup_lt_is_Some; lia).
  assert (length (opp <$> u0) = n) as Hgv by (rewrite length_fmap; done).
  assert ((opp <$> u0) !! i = Some (- ui)%float) as Hgi.
  { rewrite list_lookup_fmap, Hui. done. }
  assert (length (conjugate γ (opp <$> u0) h0) = n) as Huv.
  { unfold conjugate. rewrite length_zip_with. lia. }
  assert (conjugate γ (opp <$> u0) h0 !! i = Some (- ui + γ * hi)%float) as Hci.
  { unfold conjugate. rewrite lookup_zip_with, Hgi, Hhi. done. }
  unfold update_direction, bind, gets, directed, store_u, store_g, store_h,
    o_u, o_g, o_h. cbn.
  rewrite (index_Some _ _ ui) by (rewrite lookup_splice_old by lia; done).
  rewrite store_lt by (cbn; rewrite length_splice; lia). cbn.
  rewrite insert_splice by (done || lia).
  rewrite (index_Some _ _ (- ui)%float) by (rewrite lookup_splice_new by lia; done).
  cbn.
  rewrite (index_Some _ _ hi) by (rewrite lookup_splice_old by lia; done).
  rewrite store_lt by (cbn; rewrite length_splice; lia). cbn.
  rewrite insert_splice by (done || lia).
  rewrite (index_Some _ _ (- ui + γ * hi)%float)
    by (rewrite lookup_splice_new by lia; done).
  rewrite store_lt by (cbn; rewrite length_splice; lia). cbn.
  rewrite insert_splice by (done || lia).
  reflexivity.
Qed.

Lemma update_directions_spec nume deno m :
  let n := size (rcv m) in
  length (u (rcv m)) = n -> length (g (rcv m)) = n -> length (h (rcv m)) = n ->
  update_directions nume deno m =
    (on_rcv (fun o => let gv := PrimFloat.opp <$> u o in
                      let uv := conjugate (nume / deno) gv (h o) in
                      set_h uv (set_u uv (set_g gv o))) m, Ok tt).
Proof.
  intros n Hu Hg Hh. unfold update_directions, bind, gets. cbn.
  set (γ := (nume / deno)%float). fold n.
  destruct (for_range_inv (fun i _ s => s = directed γ i m) (update_direction γ) n 0 tt m)
    as ([] & s' & Hr & ->).
  - destruct m as [o x cs]; destruct o; reflexivity.
  - intros i [] s Hi ->. exists tt, (directed γ (Datatypes.S i) m).
    split; [|done]. apply (update_direction_step γ n); try done. lia.
  - rewrite Hr. f_equal. unfold directed, on_rcv. cbn.
    subst n. rewrite !(splice_all (size (rcv m)));
      unfold conjugate; rewrite ?length_zip_with, ?length_fmap; try lia.
    done.
Qed.

#[local] Instance same_vectors_preorder : PreOrder same_vectors.
Proof.
  split.
  - intros m. split; reflexivity.
  - intros m1 m2 m3 [] []. split; congruence.
Qed.

#[local] Instance same_point_preorder : PreOrder same_point.
Proof.
  split.
  - intros m. split; reflexivity.
  - intros m1 m2 m3 [? ?] [? ?]. split; [etrans; eassumption|congruence].
Qed.

Lemma same_vectors_line_minimization l : stable same_vectors (line_minimization l).
Proof.
  unfold line_minimization, linesearch.
  repeat first
    [ stable_step
    | apply stable_modify; intros m; split; reflexivity ].
  intros m. destruct (UseBrent (rcv m)).
  - destruct (MinUpdateX _ _ _) as [[[lb x'] lam] fm]. split; reflexivity.
  - destruct (Wolfe _ _ _ _ _) as [[[ls x'] lam] fm]. split; reflexivity.
Qed.

Lemma same_point_perturbed k xk : stable same_point (perturbed k xk).
Proof.
  unfold perturbed, call_ffcn.
  repeat first
    [ stable_step
    | apply stable_modify; intros m; split; [split|]; reflexivity
    | apply stable_store;
      [typeclasses eauto|intros v m _; split; [split|]; reflexivity]
    | intros m; split; [split|]; reflexivity ].
Qed.

Lemma same_point_checkJacobian : stable same_point checkJacobian.
Proof.
  unfold checkJacobian. repeat stable_step. apply same_point_perturbed.
Qed.

Lemma update_gradient_spec m m' r :
  update_gradient m = (m', r) ->
  u (rcv m') = jfcn (arg m) /\ g (rcv m') = g (rcv m) /\ h (rcv m') = h (rcv m) /\
  arg m' = arg m.
Proof.
  unfold update_gradient, bind, call_jfcn, modify, gets. cbn.
  destruct (CheckJfcn (rcv m)).
  - intros H. 
    match type of H with checkJacobian ?m1 = _ =>
      pose proof (same_point_checkJacobian m1) as S end.
    rewrite H in S. destruct S as [[? ? ?] ?]. cbn in *. done.
  - intros [= <- <-]. done.
Qed.

Lemma line_minimization_Ok l m :
  exists m1 lam fm uh, line_minimization l m = (m1, Ok (lam, fm, uh)).
Proof.
  unfold line_minimization, linesearch, bind, modify, gets.
  destruct (UseBrent (rcv m)).
  - destruct (MinUpdateX _ _ _) as [[[lb x'] lam] fm]. cbn.
    destruct (History (rcv m)); cbn; eauto.
  - destruct (Wolfe _ _ _ _ _) as [[[ls x'] lam] fm]. cbn.
    destruct (History (rcv m)); cbn; eauto.
Qed.

Lemma iteration_unfold l m :
  iteration l m =
    let deno := la.VecDot (g (rcv m)) (g (rcv m)) in
    if zero_gradient (rcv m) deno then (m, Ok (Return ExitZeroGradient (fmin l)))
    else
      match line_minimization l m with
      | (m1, Panic p) => (m1, Panic p)
      | (m1, Ok (lam, fm, uh)) =>
          if converged_on_f (rcv m1) fm (fx l)
          then (m1, Ok (Return ExitConvergedOnF fm))
          else
            match update_gradient m1 with
            | (m2, Panic p) => (m2, Panic p)
            | (m2, Ok _) =>
                match scaled_gradient fm m2 with
                | (m3, Panic p) => (m3, Panic p)
                | (m3, Ok test) =>
                    if Go.lt test (Gtol (rcv m3))
                    then (m3, Ok (Return ExitConvergedOnG fm))
                    else
                      match bind numerator
                              (fun nume => update_directions nume deno) m3 with
                      | (m4, Panic p) => (m4, Panic p)
                      | (m4, Ok _) =>
                          (m4, Ok (Continue {| fx := fm; fold := fx l; fmin := fm;
                                               lam_hist := lam; uhist := uh |}))
                      end
                end
            end
      end.
Proof.
  unfold iteration, bind, gets, ret. cbv zeta.
  destruct (zero_gradient (rcv m) _); [reflexivity|].
  destruct (line_minimization l m) as [m1 [[[lam fm] uh]|p]]; [|reflexivity].
  destruct (converged_on_f (rcv m1) fm (fx l)); [reflexivity|].
  destruct (update_gradient m1) as [m2 [[]|p]]; [|reflexivity].
  destruct (scaled_gradient fm m2) as [m3 [test|p]]; [|reflexivity].
  destruct (Go.lt test (Gtol (rcv m3))); [reflexivity|].
  destruct (numerator m3) as [m4 [nume|p]]; [|reflexivity].
  destruct (update_directions nume _ m4) as [m5 [[]|p]]; reflexivity.
Qed.

Lemma numerator_spec m :
  numerator m =
    (if UseFRmethod (rcv m) then m
     else on_rcv (fun o => set_tmp (la.VecAdd 1 (u o) 1 (g o)) o) m,
     Ok (scaling_numerator (rcv m))).
Proof.
  unfold numerator, scaling_numerator, bind, gets, modify, ret, o_tmp.
  destruct (UseFRmethod (rcv m)); reflexivity.
Qed.

Lemma directions_spec deno m :
  well_formed m ->
  bind numerator (fun nume => update_directions nume deno) m =
    (on_rcv (direction_update deno) m, Ok tt).
Proof.
  intros W. unfold bind. rewrite numerator_spec.
  destruct (UseFRmethod (rcv m)) eqn:HFR.
  - rewrite update_directions_spec by apply W.
    unfold direction_update, on_rcv. rewrite HFR. reflexivity.
  - rewrite update_directions_spec by (simpl; apply W).
    unfold direction_update, on_rcv. simpl. rewrite HFR. reflexivity.
Qed.

Lemma well_formed_kept {A} (c : M Mem A) m :
  stable kept c -> well_formed m -> well_formed (c m).1 /\ frame m (c m).1.
Proof.
  intros Hc W. pose proof (Hc m W) as F. split; [|done].
  eapply well_formed_frame; done.
Qed.

(** One trip of the loop, stage by stage. *)
Lemma iteration_spec l m :
  lawful -> well_formed m ->
  exists m1 lam fm uh,
    line_minimization l m = (m1, Ok (lam, fm, uh)) /\ well_formed m1 /\
    iteration l m =
      let deno := la.VecDot (g (rcv m)) (g (rcv m)) in
      if zero_gradient (rcv m) deno then (m, Ok (Return ExitZeroGradient (fmin l)))
      else if converged_on_f (rcv m1) fm (fx l)
      then (m1, Ok (Return ExitConvergedOnF fm))
      else
        match update_gradient m1 with
        | (m2, Panic p) => (m2, Panic p)
        | (m2, Ok _) =>
            if Go.lt (scaled_max (utl.Max fm 1) (u (rcv m2)) (arg m2)) (Gtol (rcv m2))
            then (m2, Ok (Return ExitConvergedOnG fm))
            else (on_rcv (direction_update deno) m2,
                  Ok (Continue {| fx := fm; fold := fx l; fmin := fm;
                                  lam_hist := lam; uhist := uh |}))
        end.
Proof.
  intros L W.
  destruct (line_minimization_Ok l m) as (m1 & lam & fm & uh & Hl).
  destruct (well_formed_kept _ m (kept_line_minimization l L) W) as [W1 _].
  rewrite Hl in W1. simpl in W1.
  exists m1, lam, fm, uh. split; [done|]. split; [done|].
  rewrite iteration_unfold, Hl. cbv zeta.
  destruct (zero_gradient (rcv m) _); [reflexivity|].
  destruct (converged_on_f (rcv m1) fm (fx l)); [reflexivity|].
  destruct (well_formed_kept _ m1 (kept_update_gradient L) W1) as [W2 _].
  destruct (update_gradient m1) as [m2 [[]|p]]; [|reflexivity].
  simpl in W2.
  rewrite scaled_gradient_spec by apply W2.
  destruct (Go.lt _ (Gtol (rcv m2))); [reflexivity|].
  rewrite directions_spec by done. reflexivity.
Qed.

Lemma directions_ok_at_loop_test m0 k m l :
  lawful -> well_formed m0 -> at_loop_test m0 k m l -> directions_ok m.
Proof.
  intros L W0 H. induction H as [m1 l Hi|k m l m' l' H IH Hlt Hit].
  - rewrite initializations_spec in Hi by done. injection Hi as <- <-.
    clear. unfold after_initializations.
    destruct m0 as [o x cs]; destruct o; simpl.
    destruct History0; split; reflexivity.
  - destruct (at_loop_test_inv _ _ _ _ L W0 H) as (W & _).
    destruct (iteration_spec l m L W) as (m1 & lam & fm & uh & Hl & W1 & Hspec).
    rewrite Hit in Hspec. cbv zeta in Hspec.
    destruct (zero_gradient (rcv m) _); [done|].
    destruct (converged_on_f (rcv m1) fm (fx l)); [done|].
    destruct (update_gradient m1) as [m2 [[]|p]] eqn:Hu; [|done].
    destruct (Go.lt _ (Gtol (rcv m2))); [done|].
    injection Hspec as -> _.
    destruct (update_gradient_spec _ _ _ Hu) as (Hu2 & Hg2 & Hh2 & Hx2).
    split; simpl.
    + unfold direction_update. simpl. rewrite Hu2, Hx2. reflexivity.
    + reflexivity.
Qed.

Lemma Min_at_return m0 k m l m' p f :
  lawful -> well_formed m0 -> enters m0 k m l ->
  iteration l m = (m', Ok (Return p f)) ->
  Min_exit m0 = (m', Ok (p, f)) /\ Min m0 = (m', Ok f).
Proof.
  intros L W H Hit.
  destruct (enters_inv _ _ _ _ L W H) as (Hk & _ & _ & _ & HM).
  assert (Min_exit m0 = (m', Ok (p, f))) as HE.
  { rewrite HM.
    replace (trips m0 - k) with (Datatypes.S (trips m0 - Datatypes.S k))
      by (unfold trips; lia).
    simpl. unfold bind at 1. rewrite Hit. reflexivity. }
  split; [done|]. unfold Min, bind. rewrite HE. reflexivity.
Qed.

Lemma Min_at_panic m0 k m l m' p :
  lawful -> well_formed m0 -> enters m0 k m l ->
  iteration l m = (m', Panic p) ->
  Min m0 = (m', Panic p).
Proof.
  intros L W H Hit.
  destruct (enters_inv _ _ _ _ L W H) as (Hk & _ & _ & _ & HM).
  unfold Min, bind. rewrite HM.
  replace (trips m0 - k) with (Datatypes.S (trips m0 - Datatypes.S k))
    by (unfold trips; lia).
  simpl. unfold bind at 1. rewrite Hit. reflexivity.
Qed.


Lemma enters_first m0 :
  lawful -> well_formed m0 -> (0 < MaxIt (rcv m0))%Z ->
  enters m0 0 (on_rcv (set_NumIter 0) (after_initializations m0)) (initial_locals m0).
Proof.
  intros L W Hmax. split.
  - apply loop_test_first. apply initializations_spec; done.
  - pose proof (frame_after_initializations m0 L W) as F.
    change (0 < MaxIt (rcv (after_initializations m0)))%Z.
    rewrite (fr_MaxIt _ _ F). done.
Qed.

Lemma bind_Ok {A B} (c : M Mem A) (k : A -> M Mem B) m m' a :
  c m = (m', Ok a) -> bind c k m = k a m'.
Proof. intros H. unfold bind. rewrite H. reflexivity. Qed.

Lemma bind_Panic {A B} (c : M Mem A) (k : A -> M Mem B) m m' p :
  c m = (m', Panic p) -> bind c k m = (m', Panic p).
Proof. intros H. unfold bind. rewrite H. reflexivity. Qed.

Lemma bind_gets {A B} (f : Mem -> A) (k : A -> M Mem B) m :
  bind (gets f) k m = k (f m) m.
Proof. reflexivity. Qed.

Lemma bind_modify {B} (f : Mem -> Mem) (k : unit -> M Mem B) m :
  bind (modify f) k m = k tt (f m).
Proof. reflexivity. Qed.

Lemma copy_same_length (dst src : list float) :
  length dst = length src -> copy dst src = src.
Proof.
  intros H. unfold copy. rewrite H, firstn_all, drop_ge, app_nil_r by lia. done.
Qed.

Lemma perturbed_spec k xk m :
  length (tmp (rcv m)) = length (arg m) -> k < length (arg m) ->
  exists m', perturbed k xk m = (m', Ok (along (arg m) k xk)) /\
             same_point m m' /\ frame m m'.
Proof.
  intros Ht Hk. unfold perturbed, bind, modify, gets, call_ffcn, store_tmp.
  rewrite store_lt by (unfold o_tmp; simpl; rewrite length_copy; lia).
  unfold o_tmp. simpl. rewrite copy_same_length by done.
  eexists. split; [reflexivity|].
  split; [split; [split|]; reflexivity|].
  split; simpl; try reflexivity. rewrite length_insert. done.
Qed.

Lemma run_Deriv_perturbed d k m :
  length (tmp (rcv m)) = length (arg m) -> k < length (arg m) ->
  exists m', run_Deriv d (perturbed k) m = (m', Ok (value_Deriv d (along (arg m) k))) /\
             same_point m m' /\ frame m m'.
Proof.
  intros Ht Hk. revert m Ht Hk. induction d as [res|xk cont IH]; intros m Ht Hk.
  - exists m. split; [reflexivity|]. split; reflexivity.
  - destruct (perturbed_spec k xk m Ht Hk) as (m1 & H1 & S1 & F1).
    destruct (IH (along (arg m) k xk) m1) as (m2 & H2 & S2 & F2).
    { rewrite (fr_tmp _ _ F1), (fr_x _ _ F1). done. }
    { rewrite (fr_x _ _ F1). done. }
    exists m2. split; [|split; etrans; eassumption].
    simpl. unfold bind. rewrite H1, H2. rewrite (sp_x _ _ S1). reflexivity.
Qed.

Lemma check_coordinate_spec k m :
  length (tmp (rcv m)) = length (arg m) -> length (u (rcv m)) = length (arg m) ->
  k < length (arg m) ->
  exists m',
    check_coordinate k tt m =
      (m', if Go.gt (diff_at (u (rcv m)) (arg m) k) tolJ
           then Panic (JacobianIncorrect (diff_at (u (rcv m)) (arg m) k))
           else Ok tt) /\
    same_point m m' /\ frame m m'.
Proof.
  intros Ht Hu Hk.
  assert (is_Some (arg m !! k)) as [xk Hxk] by (apply lookup_lt_is_Some; lia).
  assert (is_Some (u (rcv m) !! k)) as [uk Huk] by (apply lookup_lt_is_Some; lia).
  destruct (run_Deriv_perturbed (DerivCen5 xk 1e-3) k m Ht Hk) as (m1 & H1 & S1 & F1).
  assert (diff_at (u (rcv m)) (arg m) k
          = math.Abs (uk - value_Deriv (DerivCen5 xk 1e-3) (along (arg m) k))) as Hd.
  { unfold diff_at, dfdx. rewrite Hxk, Huk. reflexivity. }
  exists m1. split; [|done].
  unfold check_coordinate. rewrite bind_gets.
  rewrite (bind_Ok _ _ _ _ _ (index_Some _ _ _ m Hxk)).
  rewrite (bind_Ok _ _ _ _ _ H1). rewrite bind_gets. unfold o_u.
  rewrite (sv_u _ _ (sp_vectors _ _ S1)).
  rewrite (bind_Ok _ _ _ _ _ (index_Some _ _ _ m1 Huk)).
  cbv zeta. rewrite <- Hd.
  destruct (Go.gt (diff_at (u (rcv m)) (arg m) k) tolJ); reflexivity.
Qed.

Lemma checkJacobian_from n k m :
  length (tmp (rcv m)) = length (arg m) -> length (u (rcv m)) = length (arg m) ->
  k + n <= length (arg m) ->
  exists m',
    for_range n k check_coordinate tt m =
      (m', match first_incorrect (u (rcv m)) (arg m) n k with
           | Some d => Panic (JacobianIncorrect d)
           | None => Ok tt
           end) /\
    same_point m m' /\ frame m m'.
Proof.
  revert k m. induction n as [|n IH]; intros k m Ht Hu Hk.
  - exists m. split; [reflexivity|]. split; reflexivity.
  - destruct (check_coordinate_spec k m Ht Hu) as (m1 & H1 & S1 & F1); [lia|].
    simpl. destruct (Go.gt (diff_at (u (rcv m)) (arg m) k) tolJ).
    + exists m1. split; [|done]. apply bind_Panic. done.
    + destruct (IH (Datatypes.S k) m1) as (m2 & H2 & S2 & F2).
      { rewrite (fr_tmp _ _ F1), (fr_x _ _ F1). done. }
      { rewrite (fr_u _ _ F1), (fr_x _ _ F1). done. }
      { rewrite (fr_x _ _ F1). lia. }
      exists m2. split; [|split; etrans; eassumption].
      rewrite (bind_Ok _ _ _ _ _ H1), H2.
      rewrite (sv_u _ _ (sp_vectors _ _ S1)), (sp_x _ _ S1). reflexivity.
Qed.

Lemma checkJacobian_unfold :
  checkJacobian = bind (gets (fun m => size (rcv m)))
                       (fun n => for_range n 0 check_coordinate tt).
Proof. reflexivity. Qed.

Lemma first_incorrect_None uv x n k :
  first_incorrect uv x n k = None <->
  forall j, k <= j < k + n -> Go.gt (diff_at uv x j) tolJ = false.
Proof.
  revert k. induction n as [|n IH]; intros k; simpl.
  - split; [intros _ j Hj; lia|done].
  - destruct (Go.gt (diff_at uv x k) tolJ) eqn:E.
    + split; [done|]. intros H. rewrite H in E by lia. done.
    + rewrite IH. split.
      * intros H j Hj. destruct (decide (j = k)) as [->|]; [done|]. apply H. lia.
      * intros H j Hj. apply H. lia.
Qed.

Lemma first_incorrect_Some uv x n k d :
  first_incorrect uv x n k = Some d ->
  exists j, k <= j < k + n /\ d = diff_at uv x j /\
            Go.gt (diff_at uv x j) tolJ = true /\
            forall i, k <= i < j -> Go.gt (diff_at uv x i) tolJ = false.
Proof.
  revert k. induction n as [|n IH]; intros k; simpl; [done|].
  destruct (Go.gt (diff_at uv x k) tolJ) eqn:E.
  - intros [= <-]. exists k. split; [lia|]. split; [done|]. split; [done|].
    intros i Hi. lia.
  - intros H. destruct (IH _ H) as (j & Hj & Hd & Hgt & Hbefore).
    exists j. split; [lia|]. split; [done|]. split; [done|].
    intros i Hi. destruct (decide (i = k)) as [->|]; [done|]. apply Hbefore. lia.
Qed.

(** [checkJacobian] compares, coordinate by coordinate, the gradient in [o.u]
    with the estimate that [num.DerivCen5] makes from the objective along that
    coordinate.  It returns when no [diff] is above [tolJ = 1e-12]; otherwise
    it panics with the [diff] of the first coordinate above it, the later
    ones unchecked.  It reads [x] and [o.u] within their bounds, and leaves
    [x], [o.u], [o.g] and [o.h] as they were: it works in the scratch vector
    [o.tmp]. *)
Theorem checkJacobian_spec m :
  well_formed m ->
  let uv := u (rcv m) in
  let x := arg m in
  let n := size (rcv m) in
  exists m' r,
    checkJacobian m = (m', r) /\ same_point m m' /\ well_formed m' /\
    (r = Ok tt <-> forall k, k < n -> Go.gt (diff_at uv x k) tolJ = false) /\
    (forall p, r = Panic p ->
       exists k, k < n /\ p = JacobianIncorrect (diff_at uv x k) /\
                 Go.gt (diff_at uv x k) tolJ = true /\
                 forall j, j < k -> Go.gt (diff_at uv x j) tolJ = false).
Proof.
  intros W uv x n.
  destruct (checkJacobian_from n 0 m) as (m' & H & S & F);
    try (destruct W; unfold n; (congruence || lia)).
  exists m'. eexists. split; [|split; [done|split]].
  - rewrite checkJacobian_unfold, bind_gets. exact H.
  - eapply well_formed_frame; done.
  - fold uv x. destruct (first_incorrect uv x n 0) as [d|] eqn:E.
    + split.
      * split; [done|]. intros Hall.
        destruct (first_incorrect_Some _ _ _ _ _ E) as (j & Hj & _ & Hgt & _).
        rewrite Hall in Hgt by lia. done.
      * intros p [= <-].
        destruct (first_incorrect_Some _ _ _ _ _ E) as (j & Hj & -> & Hgt & Hb).
        exists j. split; [lia|]. split; [done|]. split; [done|].
        intros i Hi. apply Hb. lia.
    + split; [|done]. split; [|done]. intros _ k Hk.
      apply (proj1 (first_incorrect_None uv x n 0) E). lia.
Qed.

Lemma update_gradient_panic m m' p :
  lawful -> well_formed m -> update_gradient m = (m', Panic p) ->
  CheckJfcn (rcv m) = true /\ exists d, p = JacobianIncorrect d.
Proof.
  intros L W. unfold update_gradient.
  destruct (well_formed_kept _ m (kept_call_jfcn L) W) as [W1 _].
  destruct (call_jfcn m) as [m1 [[]|p1]] eqn:H1; [|done].
  rewrite (bind_Ok _ _ _ _ _ H1), bind_modify, bind_gets. simpl in W1.
  set (m2 := on_rcv _ m1).
  assert (well_formed m2) as W2 by (destruct W1; split; done).
  assert (CheckJfcn (rcv m2) = CheckJfcn (rcv m)) as HC.
  { injection H1 as <-. reflexivity. }
  rewrite HC. destruct (CheckJfcn (rcv m)); [|done].
  intros H. split; [done|].
  destruct (checkJacobian_spec m2 W2) as (m3 & r & Hc & _ & _ & _ & Hp).
  rewrite H in Hc. injection Hc as <- <-.
  destruct (Hp p eq_refl) as (k & _ & -> & _). eauto.
Qed.

(** What one trip of the loop may end in. *)
Lemma iteration_outcome l m :
  lawful -> well_formed m ->
  exists m' r, iteration l m = (m', r) /\ well_formed m' /\ frame m m' /\
    match r with
    | Ok _ => True
    | Panic (JacobianIncorrect _) => CheckJfcn (rcv m) = true
    | Panic _ => False
    end.
Proof.
  intros L W.
  destruct (well_formed_kept _ m (kept_iteration l L) W) as [W' F].
  destruct (iteration l m) as [m' r] eqn:Hit. simpl in *.
  exists m', r. split; [done|]. split; [done|]. split; [done|].
  destruct r as [s|p]; [done|].
  destruct (iteration_spec l m L W) as (m1 & lam & fm & uh & Hl & W1 & Hspec).
  rewrite Hit in Hspec. cbv zeta in Hspec.
  destruct (zero_gradient (rcv m) _); [done|].
  destruct (converged_on_f (rcv m1) fm (fx l)); [done|].
  destruct (update_gradient m1) as [m2 [[]|p2]] eqn:Hu.
  - destruct (Go.lt _ (Gtol (rcv m2))); done.
  - injection Hspec as -> ->.
    destruct (update_gradient_panic _ _ _ L W1 Hu) as (HC & d & ->).
    pose proof (kept_line_minimization l L m W) as F1. rewrite Hl in F1.
    simpl in F1. rewrite <- (fr_CheckJfcn _ _ F1). done.
Qed.

Lemma same_config_frame m m' : frame m m' -> same_config m m'.
Proof. intros []. split; simpl; congruence. Qed.

Lemma same_config_trans m1 m2 m3 :
  same_config m1 m2 -> same_config m2 m3 -> same_config m1 m3.
Proof. intros [] []. split; simpl in *; congruence. Qed.

Lemma same_config_set_NumIter v m : same_config m (on_rcv (set_NumIter v) m).
Proof. split; reflexivity. Qed.

(** What the loop may end in, from a test that leaves [n] trips. *)
Lemma iterations_outcome n l m :
  lawful -> well_formed m ->
  (0 <= NumIter (rcv m))%Z -> (NumIter (rcv m) + Z.of_nat n <= Int.max_int)%Z ->
  exists m' r, iterations n l m = (m', r) /\ well_formed m' /\ same_config m m' /\
    match r with
    | Ok _ =>
        (NumIter (rcv m) <= NumIter (rcv m') < NumIter (rcv m) + Z.of_nat n)%Z
    | Panic (FailToConverge it) =>
        it = NumIter (rcv m') /\ NumIter (rcv m') = (NumIter (rcv m) + Z.of_nat n)%Z
    | Panic (JacobianIncorrect _) => CheckJfcn (rcv m) = true
    | Panic IndexOutOfRange => False
    end.
Proof.
  intros L. revert l m. induction n as [|n IH]; intros l m W H0 Hmax.
  - exists m. eexists. split; [reflexivity|]. split; [done|].
    split; [apply same_config_frame; reflexivity|]. simpl. split; [done|lia].
  - destruct (iteration_outcome l m L W) as (m1 & r1 & Hit & W1 & F1 & Hr1).
    simpl. destruct r1 as [[p f|l1]|p1].
    + exists m1. eexists. split; [rewrite (bind_Ok _ _ _ _ _ Hit); reflexivity|].
      split; [done|]. split; [apply same_config_frame; done|].
      rewrite (fr_NumIter _ _ F1). lia.
    + rewrite (bind_Ok _ _ _ _ _ Hit), bind_modify.
      fold (next_iteration m1).
      assert (NumIter (rcv (next_iteration m1)) = (NumIter (rcv m) + 1)%Z) as HN.
      { simpl. rewrite (fr_NumIter _ _ F1). unfold Int.add.
        apply wrap_small. unfold Int.min_int, Int.max_int in *. lia. }
      destruct (IH l1 (next_iteration m1)) as (m' & r & Hr & W' & S' & Hm).
      { apply well_formed_set_NumIter. done. }
      { lia. }
      { lia. }
      exists m', r. split; [done|]. split; [done|]. split.
      * eapply same_config_trans; [apply same_config_frame; exact F1|].
        eapply same_config_trans; [apply same_config_set_NumIter|exact S'].
      * rewrite HN in Hm. destruct r as [?|[it|d|]]; try done; try lia.
        simpl in Hm. rewrite (fr_CheckJfcn _ _ F1) in Hm. done.
    + exists m1. eexists. split; [rewrite (bind_Panic _ _ _ _ _ Hit); reflexivity|].
      split; [done|]. split; [apply same_config_frame; done|].
      destruct p1; done.
Qed.

Lemma Min_exit_outcome m :
  lawful -> well_formed m ->
  exists m' r, Min_exit m = (m', r) /\ well_formed m' /\ same_config m m' /\
    match r with
    | Ok _ => (0 <= NumIter (rcv m') < MaxIt (rcv m))%Z
    | Panic (FailToConverge it) =>
        it = Z.max 0 (MaxIt (rcv m)) /\ NumIter (rcv m') = it
    | Panic (JacobianIncorrect _) => CheckJfcn (rcv m) = true
    | Panic IndexOutOfRange => False
    end.
Proof.
  intros L W.
  pose proof (frame_after_initializations m L W) as F.
  pose proof (well_formed_frame _ _ W F) as W1.
  set (m1 := on_rcv (set_NumIter 0) (after_initializations m)).
  assert (well_formed m1) as W1' by (apply well_formed_set_NumIter; done).
  assert (same_config m m1) as S1.
  { eapply same_config_trans; [apply same_config_frame; exact F|].
    apply same_config_set_NumIter. }
  destruct (iterations_outcome (trips m) (initial_locals m) m1 L W1')
    as (m' & r & Hr & W' & S' & Hm).
  { simpl. lia. }
  { simpl. unfold trips. destruct W. unfold Int.max_int in *. lia. }
  exists m', r. split; [|split; [done|split]].
  - unfold Min_exit. rewrite (bind_Ok _ _ _ _ _ (initializations_spec m L W)).
    rewrite bind_modify, bind_gets. fold m1.
    change (MaxIt (rcv m1)) with (MaxIt (rcv (after_initializations m))).
    rewrite (fr_MaxIt _ _ F). exact Hr.
  - eapply same_config_trans; done.
  - assert (CheckJfcn (rcv m1) = CheckJfcn (rcv m)) as HC
      by apply (fr_CheckJfcn _ _ F).
    change (NumIter (rcv m1)) with 0%Z in Hm. unfold trips in Hm.
    destruct r as [?|[it|d|]]; try done; try lia. congruence.
Qed.


(** [o.NumIter] counts the trips of the loop that ran to their end: when
    [Min] returns during trip [k] (the first is trip 0), through whichever
    exit, [o.NumIter] is [k] and the value returned is the one of that exit. *)
Theorem Min_returns_in_trip m0 k m l m' p f :
  lawful -> well_formed m0 -> enters m0 k m l ->
  iteration l m = (m', Ok (Return p f)) ->
  Min m0 = (m', Ok f) /\ NumIter (rcv m') = Z.of_nat k /\
  (Z.of_nat k < MaxIt (rcv m0))%Z.
Proof.
  intros L W H Hit.
  destruct (enters_inv _ _ _ _ L W H) as (Hk & Wm & _ & HN & _).
  destruct (Min_at_return _ _ _ _ _ _ _ L W H Hit) as [_ HM].
  split; [done|]. split; [|done].
  pose proof (kept_iteration l L m Wm) as F. rewrite Hit in F. simpl in F.
  rewrite (fr_NumIter _ _ F). done.
Qed.


(** A trip that comes to the update of the directions, unfolded. *)
Lemma iteration_Continue l m m' l' :
  lawful -> well_formed m ->
  iteration l m = (m', Ok (Continue l')) ->
  exists m1 lam fm uh m2,
    zero_gradient (rcv m) (la.VecDot (g (rcv m)) (g (rcv m))) = false /\
    line_minimization l m = (m1, Ok (lam, fm, uh)) /\
    converged_on_f (rcv m1) fm (fx l) = false /\
    update_gradient m1 = (m2, Ok tt) /\
    Go.lt (scaled_max (utl.Max fm 1) (u (rcv m2)) (arg m2)) (Gtol (rcv m2)) = false /\
    m' = on_rcv (direction_update (la.VecDot (g (rcv m)) (g (rcv m)))) m2 /\
    l' = {| fx := fm; fold := fx l; fmin := fm; lam_hist := lam; uhist := uh |} /\
    frame m m1 /\ frame m1 m2 /\ same_vectors m m1.
Proof.
  intros L W Hit.
  destruct (iteration_spec l m L W) as (m1 & lam & fm & uh & Hl & W1 & Hspec).
  rewrite Hit in Hspec. cbv zeta in Hspec.
  destruct (zero_gradient (rcv m) _) eqn:Hz; [done|].
  destruct (converged_on_f (rcv m1) fm (fx l)) eqn:Hc; [done|].
  destruct (update_gradient m1) as [m2 [[]|p]] eqn:Hu; [|done].
  destruct (Go.lt _ (Gtol (rcv m2))) eqn:Hg; [done|].
  injection Hspec as -> ->.
  exists m1, lam, fm, uh, m2. repeat (split; [done|]).
  pose proof (kept_line_minimization l L m W) as F1. rewrite Hl in F1.
  pose proof (kept_update_gradient L m1 W1) as F2. rewrite Hu in F2.
  pose proof (same_vectors_line_minimization l m) as S1. rewrite Hl in S1.
  split; [exact F1|]. split; [exact F2|exact S1].
Qed.

(** The update of the directions, in terms of the gradients: with [gOld] the
    gradient at the point the trip started from and [gNew] the gradient at the
    point the line minimization moved [x] to,
    [γ = (gNew . gNew) / (gOld . gOld)] for Fletcher-Reeves, and
    [γ = max((gNew - gOld) . gNew, 0) / (gOld . gOld)] for Polak-Ribiere,
    the difference being computed as [1*gNew + 1*(-gOld)]; then
    [o.g = -gNew], [o.u = o.g + γ*hOld] with [hOld] the direction of the trip,
    and [o.h = o.u]. *)
Theorem direction_update_formula m0 k m l m' l' :
  lawful -> well_formed m0 -> enters m0 k m l ->
  iteration l m = (m', Ok (Continue l')) ->
  let gOld := jfcn (arg m) in
  let gNew := jfcn (arg m') in
  let hOld := u (rcv m) in
  let nume :=
    if UseFRmethod (rcv m0) then la.VecDot gNew gNew
    else utl.Max (la.VecDot (la.VecAdd 1 gNew 1 (PrimFloat.opp <$> gOld)) gNew) 0 in
  let γ := (nume / la.VecDot gOld gOld)%float in
  g (rcv m') = PrimFloat.opp <$> gNew /\
  u (rcv m') = conjugate γ (PrimFloat.opp <$> gNew) hOld /\
  h (rcv m') = u (rcv m').
Proof.
  intros L W0 H Hit gOld gNew hOld nume γ.
  destruct (enters_inv _ _ _ _ L W0 H) as (_ & W & S & _ & _).
  destruct (directions_ok_at_loop_test _ _ _ _ L W0 (proj1 H)) as [Hg Hh].
  destruct (iteration_Continue _ _ _ _ L W Hit)
    as (m1 & lam & fm & uh & m2 & _ & Hl & _ & Hu & _ & -> & _ & F1 & F2 & S1).
  destruct (update_gradient_spec _ _ _ Hu) as (Hu2 & Hg2 & Hh2 & Hx2).
  assert (u (rcv m2) = gNew) as HgNew.
  { unfold gNew. simpl. rewrite Hx2. exact Hu2. }
  assert (g (rcv m2) = PrimFloat.opp <$> gOld) as HgOld.
  { rewrite Hg2, (sv_g _ _ S1). exact Hg. }
  assert (h (rcv m2) = hOld) as HhOld.
  { rewrite Hh2, (sv_h _ _ S1). exact Hh. }
  assert (UseFRmethod (rcv m2) = UseFRmethod (rcv m0)) as HFR.
  { rewrite (fr_UseFRmethod _ _ F2), (fr_UseFRmethod _ _ F1).
    destruct S as [? ? ? ? ? HS]. exact HS. }
  assert (scaling_numerator (rcv m2) = nume) as Hn.
  { unfold scaling_numerator, nume. rewrite HFR, HgNew, HgOld. reflexivity. }
  assert (la.VecDot (g (rcv m)) (g (rcv m)) = la.VecDot gOld gOld) as Hd.
  { rewrite Hg. apply VecDot_opp_opp. }
  simpl. unfold direction_update. simpl.
  rewrite Hn, Hd, HgNew, HhOld. done.
Qed.

Lemma scaled_max_snoc coef uv x uj xj :
  length uv = length x ->
  scaled_max coef (uv ++ [uj]) (x ++ [xj]) =
    let test := scaled_max coef uv x in
    let temp := scaled_temp coef uj xj in
    if Go.gt temp test then temp else test.
Proof.
  intros Hlen. unfold scaled_max.
  rewrite zip_with_app by done. rewrite foldl_app. reflexivity.
Qed.

Lemma scaled_max_upper coef uv x j uj xj :
  length uv = length x -> uv !! j = Some uj -> x !! j = Some xj ->
  Go.gt (scaled_temp coef uj xj) (scaled_max coef uv x) = false.
Proof.
  revert x j. induction uv as [|ul uv IH] using rev_ind; intros x j Hlen Hu Hx;
    [done|].
  destruct x as [|xl x _] using rev_ind.
  { rewrite length_app in Hlen. simpl in Hlen. lia. }
  rewrite !length_app in Hlen. simpl in Hlen.
  assert (length uv = length x) as Hlen' by lia.
  rewrite scaled_max_snoc by done. cbv zeta.
  destruct (decide (j < length uv)) as [Hj|Hj].
  - rewrite lookup_app_l in Hu by done. rewrite lookup_app_l in Hx by lia.
    pose proof (IH x j Hlen' Hu Hx) as Hup.
    destruct (Go.gt (scaled_temp coef ul xl) (scaled_max coef uv x)) eqn:E;
      [|done].
    eapply not_gt_after_raise; done.
  - assert (j = length uv) as ->.
    { apply lookup_lt_Some in Hu. rewrite length_app in Hu. simpl in Hu. lia. }
    rewrite lookup_app_r in Hu by lia. rewrite lookup_app_r in Hx by lia.
    rewrite Nat.sub_diag in Hu. rewrite Hlen', Nat.sub_diag in Hx.
    injection Hu as <-. injection Hx as <-.
    destruct (Go.gt (scaled_temp coef ul xl) (scaled_max coef uv x)) eqn:E;
      [|done].
    apply ltb_irrefl.
Qed.

Lemma scaled_max_attained coef uv x :
  length uv = length x ->
  scaled_max coef uv x = 0%float \/
  exists j uj xj, uv !! j = Some uj /\ x !! j = Some xj /\
                  scaled_max coef uv x = scaled_temp coef uj xj.
Proof.
  revert x. induction uv as [|ul uv IH] using rev_ind; intros x Hlen;
    [left; done|].
  destruct x as [|xl x _] using rev_ind.
  { rewrite length_app in Hlen. simpl in Hlen. lia. }
  rewrite !length_app in Hlen. simpl in Hlen.
  assert (length uv = length x) as Hlen' by lia.
  rewrite scaled_max_snoc by done. cbv zeta.
  destruct (Go.gt (scaled_temp coef ul xl) (scaled_max coef uv x)).
  - right. exists (length uv), ul, xl. split; [|split; [|done]].
    + rewrite lookup_app_r by lia. rewrite Nat.sub_diag. done.
    + rewrite lookup_app_r by lia. rewrite Hlen', Nat.sub_diag. done.
  - destruct (IH x Hlen') as [H0|(j & uj & xj & Hu & Hx & Hm)]; [left; done|].
    right. exists j, uj, xj. split; [|split; [|done]].
    + rewrite lookup_app_l; [done|]. eapply lookup_lt_Some; done.
    + rewrite lookup_app_l; [done|]. eapply lookup_lt_Some; done.
Qed.

Lemma line_minimization_calls l m m1 r :
  line_minimization l m = (m1, r) ->
  calls m1 = CallLinesearch (UseBrent (rcv m)) (arg m) (u (rcv m)) (fold l) :: calls m.
Proof.
  unfold line_minimization, linesearch, bind, modify, gets.
  destruct (UseBrent (rcv m)).
  - destruct (MinUpdateX _ _ _) as [[[lb x'] lam] fm]. cbn.
    destruct (History (rcv m)); cbn; intros [= <- _]; reflexivity.
  - destruct (Wolfe _ _ _ _ _) as [[[ls x'] lam] fm]. cbn.
    destruct (History (rcv m)); cbn; intros [= <- _]; reflexivity.
Qed.


(** The exit on the gradient.  In a trip that evaluates the gradient at the
    new point [x], [test] is the largest of the numbers
    [|grad_j| * max(|x_j|, 1) / max(fx, 1)], [fx] being the value that the line
    minimization returned: no such number is above [test], and [test] is one of
    them unless it is 0, the value it starts from (components that are not
    numbers are passed over).  [Min] returns at this exit, with that value,
    exactly when [test < Gtol]. *)
Theorem converged_on_gradient_exit m0 k m l m1 lam fm uh m2 :
  lawful -> well_formed m0 -> enters m0 k m l ->
  zero_gradient (rcv m) (la.VecDot (g (rcv m)) (g (rcv m))) = false ->
  line_minimization l m = (m1, Ok (lam, fm, uh)) ->
  converged_on_f (rcv m1) fm (fx l) = false ->
  update_gradient m1 = (m2, Ok tt) ->
  let x := arg m2 in
  let grad := jfcn x in
  let coef := utl.Max fm 1 in
  let test := scaled_max coef grad x in
  (forall j gj xj, grad !! j = Some gj -> x !! j = Some xj ->
     Go.gt (math.Abs gj * utl.Max (math.Abs xj) 1 / coef) test = false) /\
  (test = 0%float \/
   exists j gj xj, grad !! j = Some gj /\ x !! j = Some xj /\
     test = (math.Abs gj * utl.Max (math.Abs xj) 1 / coef)%float) /\
  (Go.lt test (Gtol (rcv m0)) = true <->
   iteration l m = (m2, Ok (Return ExitConvergedOnG fm))) /\
  (Go.lt test (Gtol (rcv m0)) = true -> Min m0 = (m2, Ok fm)).
Proof.
  intros L W0 H Hz Hl Hc Hu x grad coef test.
  destruct (enters_inv _ _ _ _ L W0 H) as (_ & W & S & _ & _).
  destruct (iteration_spec l m L W) as (m1' & lam' & fm' & uh' & Hl' & W1 & Hspec).
  rewrite Hl in Hl'. injection Hl' as <- <- <- <-.
  cbv zeta in Hspec. rewrite Hz, Hc, Hu in Hspec.
  destruct (update_gradient_spec _ _ _ Hu) as (Hu2 & _ & _ & Hx2).
  assert (u (rcv m2) = grad) as Hgrad.
  { unfold grad, x. rewrite Hx2. exact Hu2. }
  pose proof (kept_line_minimization l L m W) as F1. rewrite Hl in F1. simpl in F1.
  pose proof (kept_update_gradient L m1 W1) as F2. rewrite Hu in F2. simpl in F2.
  assert (Gtol (rcv m2) = Gtol (rcv m0)) as HG.
  { rewrite (fr_Gtol _ _ F2), (fr_Gtol _ _ F1).
    destruct S as [? ? HS]. exact HS. }
  rewrite Hgrad, HG in Hspec. fold x coef test in Hspec.
  assert (length grad = length x) as Hlen by (unfold grad; apply jfcn_length; done).
  assert (Go.lt test (Gtol (rcv m0)) = true ->
          iteration l m = (m2, Ok (Return ExitConvergedOnG fm))) as Hfwd.
  { intros E. rewrite E in Hspec. done. }
  split; [|split; [|split; [split; [done|]|]]].
  - intros j gj xj Hg Hx. apply (scaled_max_upper coef grad x j); done.
  - destruct (scaled_max_attained coef grad x Hlen) as [?|(j & gj & xj & ? & ? & ?)];
      [left; done|right; eauto 10].
  - intros Hit. rewrite Hit in Hspec.
    destruct (Go.lt test (Gtol (rcv m0))); done.
  - intros E. eapply Min_at_return; [done..|]. apply Hfwd. done.
Qed.


(** The counters are reset: what [Min] does, and the counters it leaves, do
    not depend on the numbers that an earlier run left in [NumFeval],
    [NumJeval] and [NumIter]. *)
Theorem Min_resets_counters a b c m :
  lawful -> well_formed m ->
  Min (with_counters a b c m) = Min m.
Proof.
  intros L W.
  assert (well_formed (with_counters a b c m)) as W'.
  { destruct W. split; done. }
  assert (Min_exit (with_counters a b c m) = Min_exit m) as HE; [|unfold Min, bind; rewrite HE; done].
  unfold Min_exit.
  rewrite (bind_Ok _ _ _ _ _ (initializations_spec _ L W)).
  rewrite (bind_Ok _ _ _ _ _ (initializations_spec _ L W')).
  rewrite !bind_modify, !bind_gets.
  replace (initial_locals (with_counters a b c m)) with (initial_locals m) by done.
  replace (on_rcv (set_NumIter 0) (after_initializations (with_counters a b c m)))
    with (on_rcv (set_NumIter 0) (after_initializations m)).
  - reflexivity.
  - unfold after_initializations, with_counters.
    destruct m as [o x cs]; destruct o.
    destruct History0; lazy; reflexivity.
Qed.

(** What [iterations] ends with comes from a trip of the loop that [Min]
    enters, or from the loop test failing after [trips m0] trips. *)
Lemma iterations_trace m0 n :
  lawful -> well_formed m0 ->
  forall k m l, at_loop_test m0 k m l -> k + n = trips m0 ->
  forall m' r, iterations n l m = (m', r) ->
  match r with
  | Ok (p, f) =>
      exists k' mk lk, enters m0 k' mk lk /\ iteration lk mk = (m', Ok (Return p f))
  | Panic (FailToConverge _) => exists l', at_loop_test m0 (trips m0) m' l'
  | Panic p =>
      exists k' mk lk, enters m0 k' mk lk /\ iteration lk mk = (m', Panic p)
  end.
Proof.
  intros L W0. induction n as [|n IH]; intros k m l H Hk m' r Hr.
  - simpl in Hr. rewrite bind_gets in Hr. injection Hr as <- <-.
    exists l. replace (trips m0) with k by lia. done.
  - destruct (at_loop_test_inv _ _ _ _ L W0 H) as (W & S & HN & _ & _).
    assert (NumIter (rcv m) < MaxIt (rcv m))%Z as Hlt.
    { replace (MaxIt (rcv m)) with (MaxIt (rcv m0)) by (destruct S; done).
      unfold trips in Hk. lia. }
    destruct (iteration_outcome l m L W) as (m1 & r1 & Hit & _ & _ & Hr1).
    simpl in Hr. destruct r1 as [[p f|l1]|p1].
    + rewrite (bind_Ok _ _ _ _ _ Hit) in Hr. injection Hr as <- <-.
      exists k, m, l. split; [split|]; done.
    + rewrite (bind_Ok _ _ _ _ _ Hit), bind_modify in Hr.
      apply (IH (Datatypes.S k) (next_iteration m1) l1); [|lia|exact Hr].
      eapply loop_test_next; done.
    + rewrite (bind_Panic _ _ _ _ _ Hit) in Hr. injection Hr as <- <-.
      destruct p1 as [it|d|]; [done| |done].
      exists k, m, l. split; [split|]; done.
Qed.

Lemma Min_exit_trace m0 m' r :
  lawful -> well_formed m0 -> Min_exit m0 = (m', r) ->
  match r with
  | Ok (p, f) =>
      exists k' mk lk, enters m0 k' mk lk /\ iteration lk mk = (m', Ok (Return p f))
  | Panic (FailToConverge _) => exists l', at_loop_test m0 (trips m0) m' l'
  | Panic p =>
      exists k' mk lk, enters m0 k' mk lk /\ iteration lk mk = (m', Panic p)
  end.
Proof.
  intros L W Hr.
  pose proof (loop_test_first m0 _ _ (initializations_spec m0 L W)) as H.
  destruct (at_loop_test_inv _ _ _ _ L W H) as (_ & _ & _ & _ & HM).
  rewrite HM in Hr.
  eapply (iterations_trace m0 (trips m0 - 0) L W); [exact H|lia|exact Hr].
Qed.

Lemma Min_of_Min_exit m m' (r : result float64) :
  Min m = (m', r) ->
  exists r', Min_exit m = (m', r') /\
    match r', r with
    | Ok (_, f), Ok f' => f' = f
    | Panic p, Panic p' => p' = p
    | _, _ => False
    end.
Proof.
  unfold Min, bind. destruct (Min_exit m) as [m1 [[p f]|p]]; simpl;
    intros [= <- <-]; eexists; (split; [reflexivity|done]).
Qed.

(** A trip that the loop comes to after [K] trips: each of the trips before
    was entered and went around the loop. *)
Lemma at_loop_test_before m0 K mK lK :
  at_loop_test m0 K mK lK ->
  forall k, k < K ->
  exists m l m1 l1, enters m0 k m l /\ iteration l m = (m1, Ok (Continue l1)).
Proof.
  induction 1 as [m1 l Hi|k m l m' l' H IH Hlt Hit]; intros j Hj; [lia|].
  destruct (decide (j = k)) as [->|].
  - exists m, l, m', l'. split; [split|]; done.
  - apply IH. lia.
Qed.

(** The value [Min] returns is the one a trip of its loop returns, in the
    memory that trip leaves: [Min] returns [f] in [m'] exactly when, for some
    [k], it enters trip [k] and that trip returns [f] in [m'] at one of the
    three exit points. *)
Theorem Min_returns_iff m0 m' f :
  lawful -> well_formed m0 ->
  Min m0 = (m', Ok f) <->
  exists k m l p, enters m0 k m l /\ iteration l m = (m', Ok (Return p f)).
Proof.
  intros L W. split.
  - intros HM. destruct (Min_of_Min_exit _ _ _ HM) as ([[p f']|p] & HE & Hf); [|done].
    subst f'. destruct (Min_exit_trace _ _ _ L W HE) as (k & m & l & H & Hit).
    exists k, m, l, p. done.
  - intros (k & m & l & p & H & Hit).
    apply (Min_at_return _ _ _ _ _ _ _ L W H Hit).
Qed.

(** Fail to converge.  [Min] panics with "fail to converge" exactly when its
    loop comes to its test after [MaxIt] trips (after none, when
    [MaxIt <= 0]): then each of the trips [0 .. MaxIt-1] was entered and took
    none of the exits, the number in the message is [max 0 MaxIt], and it is
    what [o.NumIter] holds. *)
Theorem Min_fails_to_converge m0 m' it :
  lawful -> well_formed m0 ->
  Min m0 = (m', Panic (FailToConverge it)) <->
  it = Z.max 0 (MaxIt (rcv m0)) /\ NumIter (rcv m') = it /\
  (exists l, at_loop_test m0 (trips m0) m' l) /\
  forall k, k < trips m0 ->
    exists m l m1 l1, enters m0 k m l /\ iteration l m = (m1, Ok (Continue l1)).
Proof.
  intros L W. split.
  - intros HM. destruct (Min_of_Min_exit _ _ _ HM) as ([[p f']|p] & HE & Hf); [done|].
    subst p. destruct (Min_exit_trace _ _ _ L W HE) as (l & H).
    destruct (at_loop_test_inv _ _ _ _ L W H) as (_ & _ & HN & _ & HM').
    rewrite HM', Nat.sub_diag in HE. simpl in HE. rewrite bind_gets in HE.
    injection HE as <-.
    split; [unfold trips in HN; lia|]. split; [done|]. split; [eauto|].
    apply (at_loop_test_before _ _ _ _ H).
  - intros (-> & HN' & (l & H) & _).
    destruct (at_loop_test_inv _ _ _ _ L W H) as (_ & _ & HN & _ & HM').
    unfold Min, bind. rewrite HM', Nat.sub_diag. simpl.
    unfold bind, gets, raise. simpl. rewrite HN'. reflexivity.
Qed.

(** A failing check of the Jacobian is the only other way out: [Min] panics
    with "Jacobian function is incorrect" exactly when a trip it enters
    does. *)
Theorem Min_Jacobian_panic_iff m0 m' d :
  lawful -> well_formed m0 ->
  Min m0 = (m', Panic (JacobianIncorrect d)) <->
  exists k m l, enters m0 k m l /\ iteration l m = (m', Panic (JacobianIncorrect d)).
Proof.
  intros L W. split.
  - intros HM. destruct (Min_of_Min_exit _ _ _ HM) as ([[p f']|p] & HE & Hf); [done|].
    subst p. apply (Min_exit_trace _ _ _ L W HE).
  - intros (k & m & l & H & Hit).
    apply (Min_at_panic _ _ _ _ _ _ L W H Hit).
Qed.

#[local] Instance quiet_preorder : PreOrder quiet.
Proof.
  split.
  - intros m. split; reflexivity.
  - intros m1 m2 m3 [] []. split; congruence.
Qed.

#[local] Instance untouched_preorder : PreOrder untouched.
Proof.
  split.
  - intros m. split; reflexivity.
  - intros m1 m2 m3 [H1 B1 Ha La Lb] [H2 B2 Ha' La' Lb'].
    split; try congruence; intros E.
    + rewrite Ha', Ha; [done..|congruence].
    + rewrite La', La; [done..|congruence].
    + rewrite Lb', Lb; [done..|congruence].
Qed.

Lemma quiet_untouched m m' : quiet m m' -> untouched m m'.
Proof. intros []. split; done. Qed.

Lemma quiet_perturbed k xk : stable quiet (perturbed k xk).
Proof.
  unfold perturbed.
  repeat first
    [ stable_step
    | apply stable_modify; intros m; split; reflexivity
    | apply stable_store; [typeclasses eauto|]; intros v m _; split; reflexivity
    | intros m; split; reflexivity ].
Qed.

Lemma quiet_update_gradient : stable quiet update_gradient.
Proof.
  unfold update_gradient, checkJacobian.
  repeat first
    [ apply quiet_perturbed
    | stable_step
    | apply stable_modify; intros m; split; reflexivity
    | intros m; split; reflexivity ].
Qed.

Lemma line_minimization_records l m m1 lam fm uh :
  line_minimization l m = (m1, Ok (lam, fm, uh)) ->
  untouched m m1 /\
  if History (rcv m)
  then Hist (rcv m1) =
         (fun h => Append h fm (arg m1) (la.Apply lam (u (rcv m)))) <$> Hist (rcv m) /\
       uh = la.Apply lam (u (rcv m))
  else uh = uhist l.
Proof.
  unfold line_minimization, linesearch, bind, modify, gets.
  destruct (UseBrent (rcv m)) eqn:EB.
  - destruct (MinUpdateX _ _ _) as [[[lb x'] lam'] fm']. cbn.
    destruct (History (rcv m)) eqn:EH; cbn; intros [= <- <- <- <-];
      (split; [split; cbn; congruence|done]).
  - destruct (Wolfe _ _ _ _ _) as [[[ls x'] lam'] fm']. cbn.
    destruct (History (rcv m)) eqn:EH; cbn; intros [= <- <- <- <-];
      (split; [split; cbn; congruence|done]).
Qed.

Lemma quiet_direction_update deno m : quiet m (on_rcv (direction_update deno) m).
Proof.
  unfold direction_update. destruct (UseFRmethod (rcv m)) eqn:E;
    split; simpl; rewrite E; reflexivity.
Qed.

(** The memory a trip leaves, whatever its outcome. *)
Lemma iteration_memory l m :
  lawful -> well_formed m ->
  exists m1 lam fm uh,
    line_minimization l m = (m1, Ok (lam, fm, uh)) /\
    match iteration l m with
    | (m', Ok (Return ExitZeroGradient _)) => m' = m
    | (m', Ok (Return ExitConvergedOnF f)) => m' = m1 /\ f = fm
    | (m', Ok (Return ExitConvergedOnG f)) => quiet m1 m' /\ arg m' = arg m1 /\ f = fm
    | (m', _) => quiet m1 m'
    end.
Proof.
  intros L W.
  destruct (iteration_spec l m L W) as (m1 & lam & fm & uh & Hl & W1 & Hspec).
  exists m1, lam, fm, uh. split; [done|].
  rewrite Hspec. cbv zeta.
  destruct (zero_gradient _ _); [done|].
  destruct (converged_on_f _ _ _); [done|].
  pose proof (quiet_update_gradient m1) as Q.
  destruct (update_gradient m1) as [m2 [[]|p]] eqn:Hu; simpl in Q; [|done].
  destruct (update_gradient_spec _ _ _ Hu) as (_ & _ & _ & Hx).
  destruct (Go.lt _ _); [done|].
  etrans; [exact Q|apply quiet_direction_update].
Qed.

Lemma untouched_iteration l m :
  lawful -> well_formed m -> untouched m (iteration l m).1.
Proof.
  intros L W.
  destruct (iteration_memory l m L W) as (m1 & lam & fm & uh & Hl & Hm).
  destruct (line_minimization_records _ _ _ _ _ _ Hl) as [U _].
  destruct (iteration l m) as [m' [[[] f|l']|p]]; simpl.
  - subst. reflexivity.
  - destruct Hm as [-> _]. done.
  - destruct Hm as [Q _]. etrans; [exact U|apply quiet_untouched, Q].
  - etrans; [exact U|apply quiet_untouched, Hm].
  - etrans; [exact U|apply quiet_untouched, Hm].
Qed.

Lemma quiet_next_iteration m : quiet m (next_iteration m).
Proof. split; reflexivity. Qed.

Lemma untouched_iterations n :
  lawful -> forall l m, well_formed m -> untouched m (iterations n l m).1.
Proof.
  intros L. induction n as [|n IH]; intros l m W; simpl.
  - reflexivity.
  - pose proof (untouched_iteration l m L W) as U.
    destruct (well_formed_kept _ m (kept_iteration l L) W) as [W1 _].
    unfold bind at 1. destruct (iteration l m) as [m1 [[p f|l1]|p]]; simpl in *; try done.
    rewrite bind_modify. etrans; [exact U|].
    etrans; [apply quiet_untouched, quiet_next_iteration|].
    apply IH. apply well_formed_set_NumIter. done.
Qed.

Lemma untouched_after_initializations m :
  untouched m (on_rcv (set_NumIter 0) (after_initializations m)).
Proof.
  unfold after_initializations.
  destruct (History (rcv m)) eqn:E; split; simpl; rewrite ?E; done.
Qed.

(** What [Min] leaves alone.  Whether it returns or panics, [Min] does not
    change the line-search object that [o.UseBrent] does not select
    ([o.lines] with Brent's method, [o.lineb] without), and with [o.History]
    off it does not change [o.Hist]. *)
Theorem Min_leaves_untouched m m' r :
  lawful -> well_formed m -> Min m = (m', r) ->
  (UseBrent (rcv m) = true -> lines (rcv m') = lines (rcv m)) /\
  (UseBrent (rcv m) = false -> lineb (rcv m') = lineb (rcv m)) /\
  (History (rcv m) = false -> Hist (rcv m') = Hist (rcv m)).
Proof.
  intros L W HM.
  assert (untouched m m') as [_ _ Ha La Lb]; [|done].
  destruct (Min_of_Min_exit _ _ _ HM) as (r' & HE & _).
  pose proof (loop_test_first m _ _ (initializations_spec m L W)) as H.
  destruct (at_loop_test_inv _ _ _ _ L W H) as (W1 & _ & _ & _ & HM').
  rewrite HM' in HE.
  etrans; [apply untouched_after_initializations|].
  pose proof (untouched_iterations (trips m - 0) L (initial_locals m) _ W1) as U.
  rewrite HE in U. exact U.
Qed.

Lemma append_all_snoc h0 es e :
  append_all h0 (es ++ [e]) = Append (append_all h0 es) e.1.1 e.1.2 e.2.
Proof. unfold append_all. rewrite foldl_app. reflexivity. Qed.

Lemma history_at_loop_test m0 k m l :
  lawful -> well_formed m0 -> History (rcv m0) = true ->
  at_loop_test m0 k m l ->
  exists es,
    Hist (rcv m) =
      Some (append_all (NewHistory (MaxIt (rcv m0)) (ffcn (arg m0)) (arg m0)) es) /\
    length es = k.
Proof.
  intros L W0 HH H. induction H as [m1 l Hi|k m l m' l' H IH Hlt Hit].
  - rewrite initializations_spec in Hi by done. injection Hi as <- <-.
    exists []. split; [|done]. unfold after_initializations. simpl.
    rewrite HH. reflexivity.
  - destruct IH as (es & HS & Hlen).
    destruct (at_loop_test_inv _ _ _ _ L W0 H) as (W & S & _).
    assert (History (rcv m) = true) as HHm.
    { destruct S as [? ? ? E]. simpl in E. congruence. }
    destruct (iteration_memory l m L W) as (m1 & lam & fm & uh & Hl & Hm).
    rewrite Hit in Hm.
    destruct (line_minimization_records _ _ _ _ _ _ Hl) as [_ Hr].
    rewrite HHm, HS in Hr. destruct Hr as [Hr _].
    exists (es ++ [(fm, arg m1, la.Apply lam (u (rcv m)))]).
    split; [|rewrite length_app; simpl; lia].
    rewrite append_all_snoc. simpl. rewrite (q_Hist _ _ Hm). exact Hr.
Qed.

(** With [o.History] on, [Min] starts a new history, whatever [o.Hist] held,
    and appends one record after each line minimization: when [Min] ends,
    [o.Hist] is [NewHistory(o.MaxIt, f(x0), x0)] followed by [o.NumIter]
    records if [Min] left at exit 1 or failed to converge, and by
    [o.NumIter + 1] records otherwise; at exits 2 and 3 the last record holds
    the value that [Min] returns and the point it leaves in [x]. *)
Theorem History_records m0 m' r :
  lawful -> well_formed m0 -> History (rcv m0) = true ->
  Min_exit m0 = (m', r) ->
  exists es,
    Hist (rcv m') =
      Some (append_all (NewHistory (MaxIt (rcv m0)) (ffcn (arg m0)) (arg m0)) es) /\
    match r with
    | Ok (ExitZeroGradient, _) | Panic (FailToConverge _) =>
        length es = Z.to_nat (NumIter (rcv m'))
    | Ok (_, f) =>
        length es = Datatypes.S (Z.to_nat (NumIter (rcv m'))) /\
        exists uh, last es = Some (f, arg m', uh)
    | Panic _ => length es = Datatypes.S (Z.to_nat (NumIter (rcv m')))
    end.
Proof.
  intros L W0 HH HE.
  pose proof (Min_exit_trace _ _ _ L W0 HE) as T.
  assert (forall k m l rr, enters m0 k m l -> iteration l m = (m', rr) ->
    exists es m1 lam fm,
      line_minimization l m = (m1, Ok (lam, fm, la.Apply lam (u (rcv m)))) /\
      Hist (rcv m) =
        Some (append_all (NewHistory (MaxIt (rcv m0)) (ffcn (arg m0)) (arg m0)) es) /\
      Hist (rcv m1) =
        Some (append_all (NewHistory (MaxIt (rcv m0)) (ffcn (arg m0)) (arg m0))
                (es ++ [(fm, arg m1, la.Apply lam (u (rcv m)))])) /\
      length es = Z.to_nat (NumIter (rcv m')) /\
      match rr with
      | Ok (Return ExitZeroGradient _) => m' = m
      | Ok (Return ExitConvergedOnF f) => m' = m1 /\ f = fm
      | Ok (Return ExitConvergedOnG f) => quiet m1 m' /\ arg m' = arg m1 /\ f = fm
      | _ => quiet m1 m'
      end) as Trip.
  { intros k m l rr H Hit.
    destruct (enters_inv _ _ _ _ L W0 H) as (_ & W & S & HN & _).
    destruct (history_at_loop_test _ _ _ _ L W0 HH (proj1 H)) as (es & HS & Hlen).
    assert (History (rcv m) = true) as HHm.
    { destruct S as [? ? ? E]. simpl in E. congruence. }
    destruct (iteration_memory l m L W) as (m1 & lam & fm & uh & Hl & Hm).
    destruct (well_formed_kept _ m (kept_iteration l L) W) as [_ F].
    rewrite Hit in Hm, F. simpl in F.
    destruct (line_minimization_records _ _ _ _ _ _ Hl) as [_ Hr].
    rewrite HHm, HS in Hr. destruct Hr as [Hr ->].
    exists es, m1, lam, fm. split; [done|]. split; [done|]. split.
    { rewrite append_all_snoc. exact Hr. }
    split; [|exact Hm]. rewrite (fr_NumIter _ _ F), HN. lia. }
  destruct r as [[p f]|p].
  - destruct T as (k & m & l & H & Hit).
    destruct (Trip _ _ _ _ H Hit) as (es & m1 & lam & fm & Hl & HS & HS1 & Hlen & Hm).
    destruct p.
    + subst m'. exists es. done.
    + destruct Hm as [-> ->]. eexists. split; [exact HS1|].
      rewrite length_app, last_snoc. simpl. split; [lia|eauto].
    + destruct Hm as (Q & -> & ->). eexists.
      split; [rewrite (q_Hist _ _ Q); exact HS1|].
      rewrite length_app, last_snoc. simpl. split; [lia|eauto].
  - destruct p as [it|d|].
    + destruct T as (l & H).
      destruct (history_at_loop_test _ _ _ _ L W0 HH H) as (es & HS & Hlen).
      destruct (at_loop_test_inv _ _ _ _ L W0 H) as (_ & _ & HN & _).
      exists es. split; [done|]. rewrite HN. lia.
    + destruct T as (k & m & l & H & Hit).
      destruct (Trip _ _ _ _ H Hit) as (es & m1 & lam & fm & Hl & HS & HS1 & Hlen & Hm).
      eexists. split; [rewrite (q_Hist _ _ Hm); exact HS1|].
      rewrite length_app. simpl. lia.
    + destruct T as (k & m & l & H & Hit).
      destruct (Trip _ _ _ _ H Hit) as (es & m1 & lam & fm & Hl & HS & HS1 & Hlen & Hm).
      eexists. split; [rewrite (q_Hist _ _ Hm); exact HS1|].
      rewrite length_app. simpl. lia.
Qed.

Lemma ltb_trans (a b c : float) :
  (a <? b)%float = true -> (b <? c)%float = true -> (a <? c)%float = true.
Proof.
  rewrite !ltb_spec. unfold SFltb. intros H1 H2.
  destruct (SFcompare (Prim2SF a) (Prim2SF b)) as [[]|] eqn:E1; try done.
  destruct (SFcompare (Prim2SF b) (Prim2SF c)) as [[]|] eqn:E2; try done.
  rewrite (SFcompare_le_lt_trans _ _ _ (or_introl E1) E2). done.
Qed.

Lemma lt_not_nan_r (a b : float) : (a <? b)%float = true -> is_nan b = false.
Proof.
  intros H. destruct (is_nan b) eqn:E; [|done].
  apply is_nan_spec in E. rewrite ltb_spec in H. unfold SFltb in H.
  rewrite E in H. destruct (Prim2SF a); done.
Qed.

(** What is not NaN is below [+Inf], or is [+Inf]. *)
Lemma lt_infinity (a : float) :
  is_nan a = false -> (a <? infinity)%float = true \/ a = infinity.
Proof.
  intros H. rewrite ltb_spec. unfold SFltb.
  destruct (Prim2SF a) as [s|s| |s m e] eqn:E.
  - left. reflexivity.
  - destruct s; [left; reflexivity|right].
    apply Prim2SF_inj. rewrite E. reflexivity.
  - apply is_nan_spec in E. congruence.
  - left. destruct s; reflexivity.
Qed.

(** [test] is 0, the value it starts from, or above 0: never NaN, never
    negative. *)
Lemma scaled_max_sign coef uv x :
  scaled_max coef uv x = 0%float \/ Go.lt 0 (scaled_max coef uv x) = true.
Proof.
  unfold scaled_max.
  assert (forall t ps, (t = 0%float \/ Go.lt 0 t = true) ->
    let r := foldl (fun test p =>
                      let temp := scaled_temp coef (fst p) (snd p) in
                      if Go.gt temp test then temp else test) t ps in
    r = 0%float \/ Go.lt 0 r = true) as H.
  { intros t ps. revert t. induction ps as [|p ps IH]; intros t Ht; [done|].
    simpl. apply IH.
    destruct (Go.gt _ t) eqn:E; [|done]. right.
    destruct Ht as [->|Ht]; [exact E|].
    exact (ltb_trans _ _ _ Ht E). }
  apply H. left. reflexivity.
Qed.

Lemma scaled_max_not_nan coef uv x : is_nan (scaled_max coef uv x) = false.
Proof.
  destruct (scaled_max_sign coef uv x) as [->|H]; [reflexivity|].
  exact (lt_not_nan_r _ _ H).
Qed.

Lemma is_nan_mul_l (a b : float) : is_nan a = true -> is_nan (a * b) = true.
Proof.
  rewrite !is_nan_spec, mul_spec. intros ->. reflexivity.
Qed.

Lemma is_nan_div_l (a b : float) : is_nan a = true -> is_nan (a / b) = true.
Proof.
  rewrite !is_nan_spec, div_spec. intros ->. reflexivity.
Qed.

Lemma scaled_temp_nan coef uj xj :
  is_nan uj = true -> is_nan (scaled_temp coef uj xj) = true.
Proof.
  intros H. unfold scaled_temp, math.Abs.
  apply is_nan_div_l, is_nan_mul_l. rewrite is_nan_abs. exact H.
Qed.

(** NaN components are skipped: if all are NaN, [test] stays 0. *)
Lemma scaled_max_nan coef uv x :
  Forall (fun uj => is_nan uj = true) uv -> scaled_max coef uv x = 0%float.
Proof.
  unfold scaled_max. generalize 0%float. intros t H. revert x t.
  induction H as [|uj uv Hj H IH]; intros [|xj x] t; try reflexivity.
  simpl. rewrite (gt_nan_l _ t (scaled_temp_nan coef uj xj Hj)). apply IH.
Qed.

(** The tests that a trip has passed or failed, at the memory it leaves. *)
Lemma tests_in_trip m0 k m l m' r :
  lawful -> well_formed m0 -> enters m0 k m l -> iteration l m = (m', r) ->
  match r with
  | Ok (Return ExitZeroGradient _) =>
      Go.lt (math.Abs (la.VecDot (jfcn (arg m')) (jfcn (arg m')))) (tiny (rcv m0)) = true
  | Ok (Return ExitConvergedOnF _) => True
  | Ok (Return ExitConvergedOnG f) =>
      Go.lt (scaled_max (utl.Max f 1) (jfcn (arg m')) (arg m')) (Gtol (rcv m0)) = true
  | Ok (Continue l') =>
      Go.lt (scaled_max (utl.Max (fx l') 1) (jfcn (arg m')) (arg m')) (Gtol (rcv m0))
        = false
  | Panic _ => True
  end.
Proof.
  intros L W0 H Hit.
  destruct (enters_inv _ _ _ _ L W0 H) as (_ & W & S & _ & _).
  destruct (directions_ok_at_loop_test _ _ _ _ L W0 (proj1 H)) as [Hg _].
  destruct (iteration_spec l m L W) as (m1 & lam & fm & uh & Hl & W1 & Hspec).
  rewrite Hit in Hspec. cbv zeta in Hspec.
  unfold zero_gradient in Hspec. rewrite Hg, VecDot_opp_opp in Hspec.
  assert (tiny (rcv m) = tiny (rcv m0)) as Ht.
  { destruct S as [? ? ? ? ? ? ? ? E]. exact E. }
  assert (Gtol (rcv m) = Gtol (rcv m0)) as HG.
  { destruct S as [? ? E]. exact E. }
  rewrite Ht in Hspec.
  destruct (Go.lt (math.Abs _) (tiny _)) eqn:Ez.
  { injection Hspec as -> ->. exact Ez. }
  destruct (converged_on_f _ _ _).
  { injection Hspec as -> ->. exact I. }
  pose proof (kept_line_minimization l L m W) as F1. rewrite Hl in F1. simpl in F1.
  pose proof (kept_update_gradient L m1 W1) as F2.
  destruct (update_gradient m1) as [m2 [[]|p]] eqn:Hu; simpl in F2.
  - destruct (update_gradient_spec _ _ _ Hu) as (Hu2 & _ & _ & Hx2).
    rewrite (fr_Gtol _ _ F2), (fr_Gtol _ _ F1), HG, Hu2, <- Hx2 in Hspec.
    destruct (Go.lt (scaled_max _ _ _) _) eqn:Et; injection Hspec as -> ->; exact Et.
  - injection Hspec as -> ->. exact I.
Qed.

(** What holds when [Min] has returned at exit 1 or at exit 3.  At exit 1
    the squared norm of the gradient at the point left in [x] is below
    [o.tiny] in magnitude.  At exit 3, [test], computed from the returned
    value and the gradient at the point left in [x], is below [Gtol]; [test]
    is never NaN and never negative, so that [Gtol] is above 0: with a
    [Gtol] that is 0, negative or NaN, [Min] never returns at exit 3. *)
Theorem Min_exit_postcondition m0 m' p f :
  lawful -> well_formed m0 -> Min_exit m0 = (m', Ok (p, f)) ->
  let x := arg m' in
  match p with
  | ExitZeroGradient =>
      Go.lt (math.Abs (la.VecDot (jfcn x) (jfcn x))) (tiny (rcv m0)) = true
  | ExitConvergedOnF => True
  | ExitConvergedOnG =>
      let test := scaled_max (utl.Max f 1) (jfcn x) x in
      Go.lt test (Gtol (rcv m0)) = true /\
      is_nan test = false /\ Go.lt test 0 = false /\
      Go.lt 0 (Gtol (rcv m0)) = true
  end.
Proof.
  intros L W0 HE x.
  destruct (Min_exit_trace _ _ _ L W0 HE) as (k & m & l & H & Hit).
  pose proof (tests_in_trip _ _ _ _ _ _ L W0 H Hit) as T.
  destruct p; [exact T|exact I|].
  fold x in T. cbv zeta. split; [exact T|].
  split; [apply scaled_max_not_nan|].
  destruct (scaled_max_sign (utl.Max f 1) (jfcn x) x) as [E|E].
  - rewrite E in T |- *. split; [reflexivity|exact T].
  - split; [|exact (ltb_trans _ _ _ E T)].
    unfold Go.lt in *. destruct (_ <? 0)%float eqn:E'; [|done].
    pose proof (ltb_trans _ _ _ E E') as Hc. rewrite ltb_irrefl in Hc. done.
Qed.

(** A gradient of NaN's counts as converged.  In a trip that re-evaluates
    the gradient at the new [x], if every component of that gradient is NaN
    then [test] is 0, and [Min] returns at exit 3 with the value of the line
    minimization as soon as [0 < Gtol]. *)
Theorem nan_gradient_converges m0 k m l m1 lam fm uh m2 :
  lawful -> well_formed m0 -> enters m0 k m l ->
  zero_gradient (rcv m) (la.VecDot (g (rcv m)) (g (rcv m))) = false ->
  line_minimization l m = (m1, Ok (lam, fm, uh)) ->
  converged_on_f (rcv m1) fm (fx l) = false ->
  update_gradient m1 = (m2, Ok tt) ->
  Forall (fun gj => is_nan gj = true) (jfcn (arg m2)) ->
  Go.lt 0 (Gtol (rcv m0)) = true ->
  scaled_max (utl.Max fm 1) (jfcn (arg m2)) (arg m2) = 0%float /\
  Min_exit m0 = (m2, Ok (ExitConvergedOnG, fm)).
Proof.
  intros L W0 H Hz Hl Hc Hu Hnan HG.
  split; [apply scaled_max_nan; exact Hnan|].
  destruct (enters_inv _ _ _ _ L W0 H) as (_ & W & S & _ & _).
  destruct (iteration_spec l m L W) as (m1' & lam' & fm' & uh' & Hl' & W1 & Hspec).
  rewrite Hl in Hl'. injection Hl' as <- <- <- <-.
  cbv zeta in Hspec. rewrite Hz, Hc, Hu in Hspec.
  destruct (update_gradient_spec _ _ _ Hu) as (Hu2 & _ & _ & Hx2).
  pose proof (kept_line_minimization l L m W) as F1. rewrite Hl in F1. simpl in F1.
  pose proof (kept_update_gradient L m1 W1) as F2. rewrite Hu in F2. simpl in F2.
  assert (Gtol (rcv m2) = Gtol (rcv m0)) as HG2.
  { rewrite (fr_Gtol _ _ F2), (fr_Gtol _ _ F1). destruct S as [? ? E]. exact E. }
  rewrite Hu2, <- Hx2, HG2, (scaled_max_nan _ _ _ Hnan), HG in Hspec.
  apply (Min_at_return _ _ _ _ _ _ _ L W0 H Hspec).
Qed.

(** [Gtol = +Inf].  With [MaxIt >= 1], the first trip of the loop is the
    only one, unless [test] itself is [+Inf]: either it returns, at one of
    the three exits, and [Min] returns with [NumIter = 0]; or the check of
    the Jacobian panics; or [test], computed at the point the line
    minimization reached, is [+Inf], which is not below [Gtol]. *)
Theorem Gtol_infinite m0 :
  lawful -> well_formed m0 -> (0 < MaxIt (rcv m0))%Z ->
  Gtol (rcv m0) = infinity ->
  let m := on_rcv (set_NumIter 0) (after_initializations m0) in
  let l := initial_locals m0 in
  match iteration l m with
  | (m', Ok (Return p f)) => Min m0 = (m', Ok f) /\ NumIter (rcv m') = 0%Z
  | (m', Ok (Continue l')) =>
      scaled_max (utl.Max (fx l') 1) (jfcn (arg m')) (arg m') = infinity
  | (m', Panic p) =>
      Min m0 = (m', Panic p) /\ CheckJfcn (rcv m0) = true /\
      exists d, p = JacobianIncorrect d
  end.
Proof.
  intros L W0 Hmax HG m l.
  pose proof (enters_first m0 L W0 Hmax) as H. fold m l in H.
  destruct (enters_inv _ _ _ _ L W0 H) as (_ & W & S & HN & _).
  destruct (iteration l m) as [m' r] eqn:Hit.
  pose proof (tests_in_trip _ _ _ _ _ _ L W0 H Hit) as T.
  destruct (iteration_outcome l m L W) as (m'' & r' & Hit' & _ & F & Hr).
  rewrite Hit in Hit'. injection Hit' as <- <-.
  destruct r as [[p f|l']|p].
  - split; [apply (Min_at_return _ _ _ _ _ _ _ L W0 H Hit)|].
    rewrite (fr_NumIter _ _ F). exact HN.
  - rewrite HG in T.
    destruct (lt_infinity _ (scaled_max_not_nan (utl.Max (fx l') 1)
                               (jfcn (arg m')) (arg m'))) as [E|E]; [|exact E].
    unfold Go.lt in T. congruence.
  - split; [apply (Min_at_panic _ _ _ _ _ _ L W0 H Hit)|].
    destruct p as [it|d|]; try done. split; [|eauto].
    rewrite <- (fr_CheckJfcn _ _ S). exact Hr.
Qed.

#[local] Instance same_NumJeval_preorder : PreOrder same_NumJeval.
Proof.
  split.
  - intros m. reflexivity.
  - intros m1 m2 m3. unfold same_NumJeval. congruence.
Qed.

Lemma same_NumJeval_checkJacobian : stable same_NumJeval checkJacobian.
Proof.
  unfold checkJacobian, perturbed.
  repeat first
    [ stable_step
    | apply stable_modify; intros m; reflexivity
    | apply stable_store; [typeclasses eauto|]; intros v m _; reflexivity
    | intros m; reflexivity ].
Qed.

Lemma update_gradient_counters m m' r :
  update_gradient m = (m', r) ->
  NumJeval (rcv m') = Int.add (NumJeval (rcv m)) 1 /\
  (CheckJfcn (rcv m) = false -> NumFeval (rcv m') = NumFeval (rcv m)).
Proof.
  unfold update_gradient. unfold bind at 1. unfold call_jfcn.
  rewrite bind_modify, bind_gets. cbn [rcv on_rcv log set_u CheckJfcn set_NumJeval].
  destruct (CheckJfcn (rcv m)) eqn:E.
  - intros H. split; [|done].
    match type of H with checkJacobian ?m1 = _ =>
      pose proof (same_NumJeval_checkJacobian m1) as Q end.
    rewrite H in Q. exact Q.
  - intros [= <- <-]. done.
Qed.

Lemma line_minimization_counters B l m m1 lam fm uh :
  counts_within B ->
  line_minimization l m = (m1, Ok (lam, fm, uh)) ->
  exists dF dJ, (0 <= dF <= B)%Z /\ (0 <= dJ <= B)%Z /\
    dF = nfeval (rcv m1) /\ dJ = nJeval (rcv m1) /\
    NumFeval (rcv m1) = Int.add (NumFeval (rcv m)) dF /\
    NumJeval (rcv m1) = Int.add (NumJeval (rcv m)) dJ.
Proof.
  intros [HW HB] Hl. exists (nfeval (rcv m1)), (nJeval (rcv m1)).
  revert Hl.
  unfold line_minimization, linesearch, bind, modify, gets, nfeval, nJeval.
  destruct (UseBrent (rcv m)) eqn:EB.
  - specialize (HB (lineb (rcv m)) (arg m) (u (rcv m))).
    destruct (MinUpdateX _ _ _) as [[[lb x'] lam'] fm']. cbn in *.
    destruct (History (rcv m)) eqn:EH; cbn; intros [= <- <- <- <-]; cbn;
      rewrite ?EB; (split; [apply (proj1 HB)|]); (split; [apply (proj2 HB)|]); done.
  - specialize (HW (lines (rcv m)) (arg m) (u (rcv m)) true (fold l)).
    destruct (Wolfe _ _ _ _ _) as [[[ls x'] lam'] fm']. cbn in *.
    destruct (History (rcv m)) eqn:EH; cbn; intros [= <- <- <- <-]; cbn;
      rewrite ?EB; (split; [apply (proj1 HW)|]); (split; [apply (proj2 HW)|]); done.
Qed.

Lemma counters_direction_update deno m :
  NumFeval (rcv (on_rcv (direction_update deno) m)) = NumFeval (rcv m) /\
  NumJeval (rcv (on_rcv (direction_update deno) m)) = NumJeval (rcv m).
Proof.
  unfold direction_update. destruct (UseFRmethod (rcv m)) eqn:E;
    simpl; rewrite E; done.
Qed.

Lemma counts_within_nonneg B (m : Mem) : counts_within B -> (0 <= B)%Z.
Proof.
  intros [HW _].
  destruct (HW (lines (rcv m)) (arg m) (arg m) true 0%float) as [? _]. lia.
Qed.

(** The counters over one trip of the loop. *)
Lemma counters_iteration B l m m' r :
  lawful -> well_formed m -> counts_within B ->
  (0 <= NumJeval (rcv m))%Z -> (NumJeval (rcv m) + B + 1 <= Int.max_int)%Z ->
  iteration l m = (m', r) ->
  (NumJeval (rcv m) <= NumJeval (rcv m') <= NumJeval (rcv m) + B + 1)%Z /\
  match r with
  | Ok (Continue _) => (NumJeval (rcv m) + 1 <= NumJeval (rcv m'))%Z
  | _ => True
  end /\
  (CheckJfcn (rcv m) = false ->
   (0 <= NumFeval (rcv m))%Z -> (NumFeval (rcv m) + B <= Int.max_int)%Z ->
   (NumFeval (rcv m) <= NumFeval (rcv m') <= NumFeval (rcv m) + B)%Z).
Proof.
  intros L W HB HJ0 HJ1 Hit.
  pose proof (counts_within_nonneg B m HB) as HB0.
  destruct (iteration_spec l m L W) as (m1 & lam & fm & uh & Hl & W1 & Hspec).
  rewrite Hit in Hspec. cbv zeta in Hspec.
  destruct (line_minimization_counters B _ _ _ _ _ _ HB Hl)
    as (dF & dJ & HdF & HdJ & _ & _ & HF1 & HJ1').
  pose proof (kept_line_minimization l L m W) as F1. rewrite Hl in F1. simpl in F1.
  unfold Int.add in HF1, HJ1'.
  rewrite wrap_small in HJ1' by (unfold Int.min_int, Int.max_int in *; lia).
  assert (CheckJfcn (rcv m) = false ->
          (0 <= NumFeval (rcv m))%Z -> (NumFeval (rcv m) + B <= Int.max_int)%Z ->
          NumFeval (rcv m1) = (NumFeval (rcv m) + dF)%Z) as HF1'.
  { intros _ ? ?. rewrite HF1.
    apply wrap_small. unfold Int.min_int, Int.max_int in *. lia. }
  destruct (zero_gradient _ _).
  { injection Hspec as -> ->. split; [lia|]. split; [done|]. lia. }
  destruct (converged_on_f _ _ _).
  { injection Hspec as -> ->. split; [lia|]. split; [done|].
    intros ? ? ?. rewrite HF1' by done. lia. }
  destruct (update_gradient m1) as [m2 r2] eqn:Hu.
  destruct (update_gradient_counters _ _ _ Hu) as [HJ2 HF2].
  unfold Int.add in HJ2.
  rewrite wrap_small in HJ2 by (unfold Int.min_int, Int.max_int in *; lia).
  rewrite (fr_CheckJfcn _ _ F1) in HF2.
  destruct r2 as [[]|p].
  - destruct (Go.lt _ _); injection Hspec as -> ->.
    + split; [lia|]. split; [done|].
      intros ? ? ?. rewrite HF2, HF1' by done. lia.
    + destruct (counters_direction_update
                  (la.VecDot (g (rcv m)) (g (rcv m))) m2) as [-> ->].
      split; [lia|]. split; [lia|].
      intros ? ? ?. rewrite HF2, HF1' by done. lia.
  - injection Hspec as -> ->. split; [lia|]. split; [done|].
    intros ? ? ?. rewrite HF2, HF1' by done. lia.
Qed.

Lemma counters_at_loop_test B m0 k m l :
  lawful -> well_formed m0 -> counts_within B ->
  (1 + Z.max 0 (MaxIt (rcv m0)) * (B + 1) <= Int.max_int)%Z ->
  at_loop_test m0 k m l ->
  (1 + Z.of_nat k <= NumJeval (rcv m) <= 1 + Z.of_nat k * (B + 1))%Z /\
  (CheckJfcn (rcv m0) = false ->
   (1 <= NumFeval (rcv m) <= 1 + Z.of_nat k * B)%Z).
Proof.
  intros L W0 HB Hmax H.
  pose proof (counts_within_nonneg B m0 HB) as HB0.
  induction H as [m1 l Hi|k m l m' l' H IH Hlt Hit].
  - rewrite initializations_spec in Hi by done. injection Hi as <- <-.
    unfold after_initializations. simpl.
    destruct (History (rcv m0)); simpl; lia.
  - destruct (at_loop_test_inv _ _ _ _ L W0 H) as (W & S & HN & _).
    assert (MaxIt (rcv m) = MaxIt (rcv m0)) as HM by (destruct S; done).
    assert (CheckJfcn (rcv m) = CheckJfcn (rcv m0)) as HC
      by (exact (fr_CheckJfcn _ _ S)).
    destruct IH as [IHJ IHF].
    assert (0 <= NumJeval (rcv m))%Z as A1 by lia.
    assert (NumJeval (rcv m) + B + 1 <= Int.max_int)%Z as A2 by nia.
    destruct (counters_iteration B l m m' _ L W HB A1 A2 Hit) as (HJ & HJ' & HF).
    change (NumJeval (rcv (next_iteration m'))) with (NumJeval (rcv m')).
    change (NumFeval (rcv (next_iteration m'))) with (NumFeval (rcv m')).
    split; [nia|]. intros E. rewrite <- HC in E.
    specialize (IHF ltac:(congruence)).
    specialize (HF E ltac:(lia) ltac:(nia)). nia.
Qed.


Lemma wrap_wrap_add a b : Int.wrap (Int.wrap a + b) = Int.wrap (a + b).
Proof.
  unfold Int.wrap. f_equal.
  replace ((a + 2 ^ 63) mod 2 ^ 64 - 2 ^ 63 + b + 2 ^ 63)%Z
    with ((a + 2 ^ 63) mod 2 ^ 64 + b)%Z by lia.
  rewrite Zplus_mod_idemp_l. f_equal. lia.
Qed.

Lemma wrap_wrap a : Int.wrap (Int.wrap a) = Int.wrap a.
Proof.
  transitivity (Int.wrap (Int.wrap a + 0)); [f_equal; lia|].
  rewrite wrap_wrap_add. f_equal. lia.
Qed.

Lemma wrap_add_congr a a' b :
  Int.wrap a' = Int.wrap a -> Int.wrap (a' + b) = Int.wrap (a + b).
Proof. intros H. rewrite <- wrap_wrap_add, H, wrap_wrap_add. done. Qed.

#[local] Instance evaluated_preorder : PreOrder evaluated.
Proof.
  split.
  - intros m Hl. split; [done|]. split; [done|]. exists [].
    split; [done|]. split; [done|]. simpl. f_equal. lia.
  - intros m1 m2 m3 H12 H23 Hl.
    destruct (H12 Hl) as (Hl2 & Hx2 & new2 & Hc2 & Hf2 & Hn2).
    destruct (H23 Hl2) as (Hl3 & Hx3 & new3 & Hc3 & Hf3 & Hn3).
    split; [done|]. split; [congruence|]. exists (new3 ++ new2).
    split; [rewrite Hc3, Hc2, app_assoc; done|]. split.
    + apply Forall_app. split; [rewrite <- Hx2; done|done].
    + rewrite Hn3, length_app, (wrap_add_congr _ _ _ Hn2). f_equal. lia.
Qed.

Lemma evaluated_perturbed k xk : stable evaluated (perturbed k xk).
Proof.
  intros m Hl. unfold perturbed, bind, modify, gets, call_ffcn, store_tmp, store.
  unfold o_tmp. cbn [fst snd rcv on_rcv tmp set_tmp arg].
  case_decide as Hk; cbn.
  - rewrite copy_same_length by done.
    split; [rewrite length_insert; done|]. split; [done|].
    exists [CallFfcn (<[k := xk]> (arg m))].
    split; [done|]. split; [repeat constructor; eauto|].
    unfold Int.add. change (Z.of_nat (length [CallFfcn (<[k:=xk]> (arg m))])) with 1%Z.
    apply wrap_wrap.
  - split; [rewrite length_copy; done|]. split; [done|].
    exists []. split; [done|]. split; [done|]. simpl. f_equal. lia.
Qed.

(** [checkJacobian] and the objective.  With [o.tmp] as long as [x], whether
    the check passes or panics: the only collaborator that [checkJacobian]
    calls is the objective, at points that differ from [x] in one coordinate
    at most; [o.NumFeval] grows by the number of these calls, in Go's [int];
    and [x] is not modified. *)
Theorem checkJacobian_evaluations m m' r :
  length (tmp (rcv m)) = length (arg m) ->
  checkJacobian m = (m', r) ->
  arg m' = arg m /\
  exists new,
    calls m' = new ++ calls m /\
    Forall (fun c => exists k xk, c = CallFfcn (<[k := xk]> (arg m))) new /\
    Int.wrap (NumFeval (rcv m')) =
      Int.wrap (NumFeval (rcv m) + Z.of_nat (length new)).
Proof.
  intros Hl Hc.
  assert (stable evaluated checkJacobian) as St.
  { unfold checkJacobian.
    repeat first [ apply evaluated_perturbed | stable_step ]. }
  pose proof (St m Hl) as (_ & Hx & Hnew). rewrite Hc in Hx, Hnew. done.
Qed.

(** The trip before trip [k+1]. *)
Lemma at_loop_test_pred m0 k m l :
  at_loop_test m0 (Datatypes.S k) m l ->
  exists mp lp m', enters m0 k mp lp /\ iteration lp mp = (m', Ok (Continue l)) /\
                   m = next_iteration m'.
Proof.
  intros H. inversion H as [|k' mp lp m' l' Hp Hlt Hit]; subst.
  exists mp, lp, m'. split; [split|]; done.
Qed.

(** What the line search is given.  In trip [k] the line search runs from
    the current [x] along [o.u], which is [o.h]; it is given as [fold] the
    value [fx] that the trip before started with, and [f(x0) + |u|/2] in the
    first trip; [fx], which exit 2 compares [fmin] with, is the value that
    the line search of the trip before returned, and [f(x0)] in the first
    trip; and at the top of every trip [fmin = fx], which is what [Min]
    returns at exit 1. *)
Theorem line_search_arguments m0 k m l m1 r :
  lawful -> well_formed m0 -> enters m0 k m l ->
  line_minimization l m = (m1, r) ->
  calls m1 =
    CallLinesearch (UseBrent (rcv m0)) (arg m) (h (rcv m)) (fold l) :: calls m /\
  fmin l = fx l /\
  match k with
  | O =>
      let x0 := arg m0 in
      arg m = x0 /\ fx l = ffcn x0 /\
      fold l = (ffcn x0 + la.Norm (PrimFloat.opp <$> jfcn x0) / 2)%float
  | Datatypes.S k' =>
      exists mp lp mp1 lam uh,
        enters m0 k' mp lp /\
        line_minimization lp mp = (mp1, Ok (lam, fx l, uh)) /\
        arg m = arg mp1 /\ fold l = fx lp
  end.
Proof.
  intros L W0 H Hl.
  destruct (enters_inv _ _ _ _ L W0 H) as (_ & W & S & _ & _).
  destruct (directions_ok_at_loop_test _ _ _ _ L W0 (proj1 H)) as [_ Hh].
  split.
  { rewrite (line_minimization_calls _ _ _ _ Hl), Hh.
    pose proof (fr_UseBrent _ _ S) as E. simpl in E. rewrite E. reflexivity. }
  destruct k as [|k].
  - destruct H as [H _]. inversion H as [m1' l1 Hi|]; subst.
    rewrite initializations_spec in Hi by done. injection Hi as <- <-.
    unfold initial_locals, after_initializations. simpl. done.
  - destruct (at_loop_test_pred _ _ _ _ (proj1 H)) as (mp & lp & m' & Hp & Hit & ->).
    destruct (enters_inv _ _ _ _ L W0 Hp) as (_ & Wp & _).
    destruct (iteration_Continue _ _ _ _ L Wp Hit)
      as (mp1 & lam & fm & uh & m2 & _ & Hlp & _ & Hu & _ & -> & -> & _).
    destruct (update_gradient_spec _ _ _ Hu) as (_ & _ & _ & Hx).
    split; [reflexivity|].
    exists mp, lp, mp1, lam, uh. simpl. split; [done|]. split; [done|]. done.
Qed.

End run.

(** * The problem of [Demo] *)

Lemma Demo_lawful f j lam counts :
  (forall x, length (j x) = length x) ->
  lawful (C := Demo.collaborators f j lam counts).
Proof.
  intros Hj. split; simpl; intros; try apply Hj;
    unfold Demo.advance; apply length_imap.
Qed.

Lemma Demo_gradient_length x : length (Demo.gradient x) = length x.
Proof. apply length_imap. Qed.

Lemma Demo_exact_lawful : lawful (C := Demo.exact).
Proof. apply Demo_lawful, Demo_gradient_length. Qed.

Lemma Demo_short_lawful : lawful (C := Demo.short).
Proof. apply Demo_lawful, Demo_gradient_length. Qed.

Lemma Demo_well_formed (C : Collaborators) new v x :
  (v <= Int.max_int)%Z -> well_formed (Demo.start C new v x).
Proof.
  intros Hv. split; simpl; try done; apply length_replicate.
Qed.

Section exact.
#[local] Existing Instance Demo.exact.

(** C10 at the stationary point (3, -1) of the quadratic, with [MaxIt = 0]. *)
Lemma Min_without_trips_witness :
  let m := Demo.start Demo.exact ((0, 0), (0, 0))%Z 0 [3; -1]%float in
  jfcn (arg m) = [0; 0]%float /\
  exists m',
    Min m = (m', Panic (FailToConverge 0)) /\
    calls m' = CallJfcn (arg m) :: CallFfcn (arg m) :: calls m /\
    NumFeval (rcv m') = 1%Z /\ NumJeval (rcv m') = 1%Z /\
    (forall k mk l, ~ enters m k mk l).
Proof.
  intros m. split; [reflexivity|].
  apply (Min_without_trips m).
  - exact Demo_exact_lawful.
  - apply Demo_well_formed. unfold Int.max_int; lia.
  - simpl. lia.
Defined.

End exact.

Section exact_guard.
#[local] Existing Instance Demo.exact.


End exact_guard.

Section exact_outcome.
#[local] Existing Instance Demo.exact.

Lemma checkJacobian_spec_witness :
  let m := Demo.start Demo.exact ((0, 0), (0, 0))%Z 200 [0; 0]%float in
  well_formed m /\
  let uv := u (rcv m) in
  let x := arg m in
  let n := size (rcv m) in
  exists m' r,
    checkJacobian m = (m', r) /\ same_point m m' /\ well_formed m' /\
    (r = Ok tt <-> forall k, k < n -> Go.gt (diff_at uv x k) tolJ = false) /\
    (forall p, r = Panic p ->
       exists k, k < n /\ p = JacobianIncorrect (diff_at uv x k) /\
                 Go.gt (diff_at uv x k) tolJ = true /\
                 forall j, j < k -> Go.gt (diff_at uv x j) tolJ = false).
Proof.
  intros m.
  assert (well_formed m) as W by (apply Demo_well_formed; unfold Int.max_int; lia).
  split; [exact W|]. exact (checkJacobian_spec m W).
Defined.


End exact_outcome.

Section exact_return.
#[local] Existing Instance Demo.exact.

(** On the quadratic from (0, 0), with the exact line search: [Min] returns
    in trip 0, at the exit on the gradient. *)
Lemma Min_returns_in_trip_witness :
  let m0 := Demo.start Demo.exact ((0, 0), (0, 0))%Z 200 [0; 0]%float in
  let m := on_rcv (set_NumIter 0) (after_initializations m0) in
  let l := initial_locals m0 in
  exists m' f,
    iteration l m = (m', Ok (Return ExitConvergedOnG f)) /\
    Min m0 = (m', Ok f) /\ NumIter (rcv m') = 0%Z /\ (0 < MaxIt (rcv m0))%Z.
Proof.
  intros m0 m l.
  assert (well_formed m0) as W by (apply Demo_well_formed; unfold Int.max_int; lia).
  assert (enters m0 0 m l) as H.
  { apply enters_first; [exact Demo_exact_lawful|exact W|simpl; lia]. }
  assert (exists m' f, iteration l m = (m', Ok (Return ExitConvergedOnG f)))
    as (m' & f & Hit).
  { eexists. eexists. vm_compute. reflexivity. }
  exists m', f. split; [exact Hit|].
  exact (Min_returns_in_trip m0 0 m l m' _ f Demo_exact_lawful W H Hit).
Defined.


End exact_return.

Lemma Demo_stuck_lawful : lawful (C := Demo.stuck).
Proof. apply Demo_lawful, Demo_gradient_length. Qed.

Section short_directions.
#[local] Existing Instance Demo.short.

(** The first trip on the quadratic from (0, 0) with the short line search:
    it comes to the update of the directions. *)
Lemma direction_update_formula_witness :
  let m0 := Demo.start Demo.short ((0, 0), (0, 0))%Z 200 [0; 0]%float in
  let m := on_rcv (set_NumIter 0) (after_initializations m0) in
  let l := initial_locals m0 in
  exists m' l',
    iteration l m = (m', Ok (Continue l')) /\
    let gOld := jfcn (arg m) in
    let gNew := jfcn (arg m') in
    let hOld := u (rcv m) in
    let nume :=
      if UseFRmethod (rcv m0) then la.VecDot gNew gNew
      else utl.Max (la.VecDot (la.VecAdd 1 gNew 1 (PrimFloat.opp <$> gOld)) gNew) 0 in
    let γ := (nume / la.VecDot gOld gOld)%float in
    g (rcv m') = PrimFloat.opp <$> gNew /\
    u (rcv m') = conjugate γ (PrimFloat.opp <$> gNew) hOld /\
    h (rcv m') = u (rcv m').
Proof.
  intros m0 m l.
  assert (well_formed m0) as W by (apply Demo_well_formed; unfold Int.max_int; lia).
  assert (enters m0 0 m l) as H.
  { apply enters_first; [exact Demo_short_lawful|exact W|simpl; lia]. }
  assert (exists m' l', iteration l m = (m', Ok (Continue l'))) as (m' & l' & Hit).
  { eexists. eexists. vm_compute. reflexivity. }
  exists m', l'. split; [exact Hit|].
  exact (direction_update_formula m0 0 m l m' l' Demo_short_lawful W H Hit).
Defined.

End short_directions.

Section stuck_f.
#[local] Existing Instance Demo.stuck.


End stuck_f.

Section exact_gradient.
#[local] Existing Instance Demo.exact.

(** With the exact line search, the first trip on the quadratic ends at its
    minimum and returns at the exit on the gradient. *)
Lemma converged_on_gradient_exit_witness :
  let m0 := Demo.start Demo.exact ((0, 0), (0, 0))%Z 200 [0; 0]%float in
  let m := on_rcv (set_NumIter 0) (after_initializations m0) in
  let l := initial_locals m0 in
  exists m1 lam fm uh m2,
    zero_gradient (rcv m) (la.VecDot (g (rcv m)) (g (rcv m))) = false /\
    line_minimization l m = (m1, Ok (lam, fm, uh)) /\
    converged_on_f (rcv m1) fm (fx l) = false /\
    update_gradient m1 = (m2, Ok tt) /\
    let x := arg m2 in
    let grad := jfcn x in
    let coef := utl.Max fm 1 in
    let test := scaled_max coef grad x in
    (forall j gj xj, grad !! j = Some gj -> x !! j = Some xj ->
       Go.gt (math.Abs gj * utl.Max (math.Abs xj) 1 / coef) test = false) /\
    (test = 0%float \/
     exists j gj xj, grad !! j = Some gj /\ x !! j = Some xj /\
       test = (math.Abs gj * utl.Max (math.Abs xj) 1 / coef)%float) /\
    (Go.lt test (Gtol (rcv m0)) = true <->
     iteration l m = (m2, Ok (Return ExitConvergedOnG fm))) /\
    (Go.lt test (Gtol (rcv m0)) = true -> Min m0 = (m2, Ok fm)).
Proof.
  intros m0 m l.
  assert (well_formed m0) as W by (apply Demo_well_formed; unfold Int.max_int; lia).
  assert (enters m0 0 m l) as H.
  { apply enters_first; [exact Demo_exact_lawful|exact W|simpl; lia]. }
  assert (zero_gradient (rcv m) (la.VecDot (g (rcv m)) (g (rcv m))) = false) as Hz.
  { vm_compute. reflexivity. }
  assert (exists m1 lam fm uh m2,
            line_minimization l m = (m1, Ok (lam, fm, uh)) /\
            converged_on_f (rcv m1) fm (fx l) = false /\
            update_gradient m1 = (m2, Ok tt))
    as (m1 & lam & fm & uh & m2 & Hl & Hc & Hu).
  { do 5 eexists. split; [vm_compute; reflexivity|].
    split; vm_compute; reflexivity. }
  exists m1, lam, fm, uh, m2.
  split; [exact Hz|]. split; [exact Hl|]. split; [exact Hc|]. split; [exact Hu|].
  exact (converged_on_gradient_exit m0 0 m l m1 lam fm uh m2
           Demo_exact_lawful W H Hz Hl Hc Hu).
Defined.

End exact_gradient.

Section stationary_start.
#[local] Existing Instance Demo.exact.


End stationary_start.

Section counters_reset.
#[local] Existing Instance Demo.exact.

Lemma Min_resets_counters_witness :
  let m := Demo.start Demo.exact ((0, 0), (0, 0))%Z 200 [0; 0]%float in
  Min (with_counters 5 7 9 m) = Min m.
Proof.
  intros m.
  apply (Min_resets_counters 5 7 9 m).
  - exact Demo_exact_lawful.
  - apply Demo_well_formed; unfold Int.max_int; lia.
Defined.

End counters_reset.

Lemma Demo_wrong_lawful : lawful (C := Demo.wrong).
Proof.
  apply Demo_lawful. intros x. unfold Demo.off_by_one.
  rewrite length_fmap. apply Demo_gradient_length.
Qed.

Section exact_trip.
#[local] Existing Instance Demo.exact.

Lemma Min_returns_iff_witness :
  let m0 := Demo.start Demo.exact ((0, 0), (0, 0))%Z 200 [0; 0]%float in
  exists m' f, Min m0 = (m', Ok f).
Proof.
  intros m0.
  assert (well_formed m0) as W by (apply Demo_well_formed; unfold Int.max_int; lia).
  pose (m := on_rcv (set_NumIter 0) (after_initializations m0)).
  pose (l := initial_locals m0).
  assert (enters m0 0 m l) as H.
  { apply enters_first; [exact Demo_exact_lawful|exact W|simpl; lia]. }
  assert (exists m' f, iteration l m = (m', Ok (Return ExitConvergedOnG f)))
    as (m' & f & Hit).
  { eexists. eexists. vm_compute. reflexivity. }
  exists m', f.
  apply (proj2 (Min_returns_iff m0 m' f Demo_exact_lawful W)).
  exists 0, m, l, ExitConvergedOnG. split; [exact H|exact Hit].
Defined.

End exact_trip.

Section short_fail.
#[local] Existing Instance Demo.short.

Lemma Min_fails_to_converge_witness :
  let m0 := Demo.start Demo.short ((0, 0), (0, 0))%Z 1 [0; 0]%float in
  exists m', Min m0 = (m', Panic (FailToConverge 1)) /\ NumIter (rcv m') = 1%Z.
Proof.
  intros m0.
  assert (well_formed m0) as W by (apply Demo_well_formed; unfold Int.max_int; lia).
  pose (m := on_rcv (set_NumIter 0) (after_initializations m0)).
  pose (l := initial_locals m0).
  assert (enters m0 0 m l) as H.
  { apply enters_first; [exact Demo_short_lawful|exact W|simpl; lia]. }
  assert (exists m1 l1, iteration l m = (m1, Ok (Continue l1))) as (m1 & l1 & Hit).
  { eexists. eexists. vm_compute. reflexivity. }
  assert (at_loop_test m0 1 (next_iteration m1) l1) as H1.
  { eapply loop_test_next; [exact (proj1 H)|exact (proj2 H)|exact Hit]. }
  assert (NumIter (rcv (next_iteration m1)) = 1%Z) as HN.
  { destruct (at_loop_test_inv _ _ _ _ Demo_short_lawful W H1) as (_ & _ & HN & _).
    exact HN. }
  exists (next_iteration m1). split; [|exact HN].
  apply (proj2 (Min_fails_to_converge m0 (next_iteration m1) 1 Demo_short_lawful W)).
  split; [reflexivity|]. split; [exact HN|]. split; [exists l1; exact H1|].
  intros k Hk. exists m, l, m1, l1.
  replace k with 0 by (change (trips m0) with 1 in Hk; lia).
  split; [exact H|exact Hit].
Defined.

End short_fail.

Section wrong_Jacobian.
#[local] Existing Instance Demo.wrong.

Lemma Min_Jacobian_panic_iff_witness :
  let m0 := on_rcv (Demo.with_CheckJfcn true)
              (Demo.start Demo.wrong ((0, 0), (0, 0))%Z 200 [0; 0]%float) in
  exists m' d, Min m0 = (m', Panic (JacobianIncorrect d)).
Proof.
  intros m0.
  assert (well_formed m0) as W.
  { split; simpl; try done; apply length_replicate. }
  pose (m := on_rcv (set_NumIter 0) (after_initializations m0)).
  pose (l := initial_locals m0).
  assert (enters m0 0 m l) as H.
  { apply enters_first; [exact Demo_wrong_lawful|exact W|simpl; lia]. }
  assert (exists m' d, iteration l m = (m', Panic (JacobianIncorrect d)))
    as (m' & d & Hit).
  { eexists. eexists. vm_compute. reflexivity. }
  exists m', d.
  apply (proj2 (Min_Jacobian_panic_iff m0 m' d Demo_wrong_lawful W)).
  exists 0, m, l. split; [exact H|exact Hit].
Defined.

End wrong_Jacobian.

Section exact_untouched.
#[local] Existing Instance Demo.exact.

Lemma Min_leaves_untouched_witness :
  let m := Demo.start Demo.exact ((0, 0), (0, 0))%Z 200 [0; 0]%float in
  exists m' r,
    Min m = (m', r) /\
    (UseBrent (rcv m) = true -> lines (rcv m') = lines (rcv m)) /\
    (UseBrent (rcv m) = false -> lineb (rcv m') = lineb (rcv m)) /\
    (History (rcv m) = false -> Hist (rcv m') = Hist (rcv m)).
Proof.
  intros m.
  assert (well_formed m) as W by (apply Demo_well_formed; unfold Int.max_int; lia).
  assert (exists m' r, Min m = (m', r)) as (m' & r & HM).
  { eexists. eexists. vm_compute. reflexivity. }
  exists m', r. split; [exact HM|].
  exact (Min_leaves_untouched m m' r Demo_exact_lawful W HM).
Defined.

End exact_untouched.

Section exact_history.
#[local] Existing Instance Demo.exact.

Lemma History_records_witness :
  let m0 := on_rcv (Demo.with_History true)
              (Demo.start Demo.exact ((0, 0), (0, 0))%Z 200 [0; 0]%float) in
  exists m' f es,
    Min_exit m0 = (m', Ok (ExitConvergedOnG, f)) /\
    Hist (rcv m') =
      Some (append_all (NewHistory (MaxIt (rcv m0)) (ffcn (arg m0)) (arg m0)) es) /\
    length es = Datatypes.S (Z.to_nat (NumIter (rcv m'))) /\
    exists uh, last es = Some (f, arg m', uh).
Proof.
  intros m0.
  assert (well_formed m0) as W.
  { split; simpl; try done; apply length_replicate. }
  assert (exists m' f, Min_exit m0 = (m', Ok (ExitConvergedOnG, f))) as (m' & f & HE).
  { eexists. eexists. vm_compute. reflexivity. }
  destruct (History_records m0 m' _ Demo_exact_lawful W eq_refl HE) as (es & HS & Hr).
  exists m', f, es. split; [exact HE|]. split; [exact HS|exact Hr].
Defined.

End exact_history.

Lemma Demo_nans_lawful : lawful (C := Demo.nans).
Proof.
  apply Demo_lawful. intros x. unfold Demo.undefined. apply length_fmap.
Qed.

Section exact_postcondition.
#[local] Existing Instance Demo.exact.

Lemma Min_exit_postcondition_witness :
  let m0 := Demo.start Demo.exact ((0, 0), (0, 0))%Z 200 [0; 0]%float in
  exists m' f,
    Min_exit m0 = (m', Ok (ExitConvergedOnG, f)) /\
    let x := arg m' in
    let test := scaled_max (utl.Max f 1) (jfcn x) x in
    Go.lt test (Gtol (rcv m0)) = true /\
    is_nan test = false /\ Go.lt test 0 = false /\
    Go.lt 0 (Gtol (rcv m0)) = true.
Proof.
  intros m0.
  assert (well_formed m0) as W by (apply Demo_well_formed; unfold Int.max_int; lia).
  assert (exists m' f, Min_exit m0 = (m', Ok (ExitConvergedOnG, f))) as (m' & f & HE).
  { eexists. eexists. vm_compute. reflexivity. }
  exists m', f. split; [exact HE|].
  exact (Min_exit_postcondition m0 m' ExitConvergedOnG f Demo_exact_lawful W HE).
Defined.

End exact_postcondition.

Section nan_gradient.
#[local] Existing Instance Demo.nans.

Lemma nan_gradient_converges_witness :
  let m0 := Demo.start Demo.nans ((0, 0), (0, 0))%Z 200 [0; 0]%float in
  exists m2 fm, is_nan fm = true /\ Min_exit m0 = (m2, Ok (ExitConvergedOnG, fm)).
Proof.
  intros m0.
  assert (well_formed m0) as W by (apply Demo_well_formed; unfold Int.max_int; lia).
  pose (m := on_rcv (set_NumIter 0) (after_initializations m0)).
  pose (l := initial_locals m0).
  assert (enters m0 0 m l) as H.
  { apply enters_first; [exact Demo_nans_lawful|exact W|simpl; lia]. }
  assert (zero_gradient (rcv m) (la.VecDot (g (rcv m)) (g (rcv m))) = false) as Hz.
  { vm_compute. reflexivity. }
  assert (exists m1 lam fm uh,
            line_minimization l m = (m1, Ok (lam, fm, uh)) /\ is_nan fm = true /\
            converged_on_f (rcv m1) fm (fx l) = false /\
            exists m2, update_gradient m1 = (m2, Ok tt) /\
                       jfcn (arg m2) = [nan; nan])
    as (m1 & lam & fm & uh & Hl & Hf & Hc & m2 & Hu & Hj).
  { eexists. eexists. eexists. eexists.
    split; [vm_compute; reflexivity|]. split; [vm_compute; reflexivity|].
    split; [vm_compute; reflexivity|]. eexists.
    split; vm_compute; reflexivity. }
  exists m2, fm. split; [exact Hf|].
  apply (nan_gradient_converges m0 0 m l m1 lam fm uh m2 Demo_nans_lawful W H Hz Hl Hc Hu).
  - rewrite Hj. repeat constructor.
  - reflexivity.
Defined.

End nan_gradient.

Section short_infinite.
#[local] Existing Instance Demo.short.

Lemma Gtol_infinite_witness :
  let m0 := on_rcv (Demo.with_Gtol infinity)
              (Demo.start Demo.short ((0, 0), (0, 0))%Z 200 [0; 0]%float) in
  exists m' f, Min m0 = (m', Ok f) /\ NumIter (rcv m') = 0%Z.
Proof.
  intros m0.
  assert (well_formed m0) as W.
  { split; simpl; try done; apply length_replicate. }
  pose (m := on_rcv (set_NumIter 0) (after_initializations m0)).
  pose (l := initial_locals m0).
  assert (exists m' f, iteration l m = (m', Ok (Return ExitConvergedOnG f)))
    as (m' & f & Hit).
  { eexists. eexists. vm_compute. reflexivity. }
  exists m', f.
  pose proof (Gtol_infinite m0 Demo_short_lawful W ltac:(simpl; lia) eq_refl) as G.
  cbv zeta in G. fold m l in G. rewrite Hit in G. exact G.
Defined.

End short_infinite.

Section exact_counters.
#[local] Existing Instance Demo.exact.


End exact_counters.

Section exact_evaluations.
#[local] Existing Instance Demo.exact.

Lemma checkJacobian_evaluations_witness :
  let m := Demo.start Demo.exact ((0, 0), (0, 0))%Z 200 [0; 0]%float in
  exists m' r,
    checkJacobian m = (m', r) /\ arg m' = arg m /\
    exists new,
      calls m' = new ++ calls m /\
      Forall (fun c => exists k xk, c = CallFfcn (<[k := xk]> (arg m))) new /\
      Int.wrap (NumFeval (rcv m')) =
        Int.wrap (NumFeval (rcv m) + Z.of_nat (length new)).
Proof.
  intros m.
  assert (exists m' r, checkJacobian m = (m', r)) as (m' & r & Hc).
  { eexists. eexists. vm_compute. reflexivity. }
  exists m', r. split; [exact Hc|].
  exact (checkJacobian_evaluations m m' r eq_refl Hc).
Defined.

End exact_evaluations.

Section short_second_trip.
#[local] Existing Instance Demo.short.

Lemma line_search_arguments_witness :
  let m0 := Demo.start Demo.short ((0, 0), (0, 0))%Z 200 [0; 0]%float in
  exists m l m1 r,
    enters m0 1 m l /\ line_minimization l m = (m1, r) /\
    calls m1 = CallLinesearch false (arg m) (h (rcv m)) (fold l) :: calls m /\
    fmin l = fx l.
Proof.
  intros m0.
  assert (well_formed m0) as W by (apply Demo_well_formed; unfold Int.max_int; lia).
  pose (ma := on_rcv (set_NumIter 0) (after_initializations m0)).
  pose (l0 := initial_locals m0).
  assert (enters m0 0 ma l0) as H0.
  { apply enters_first; [exact Demo_short_lawful|exact W|simpl; lia]. }
  assert (exists m' l, iteration l0 ma = (m', Ok (Continue l))) as (m' & l & Hit).
  { eexists. eexists. vm_compute. reflexivity. }
  assert (at_loop_test m0 1 (next_iteration m') l) as H1.
  { eapply loop_test_next; [exact (proj1 H0)|exact (proj2 H0)|exact Hit]. }
  assert (enters m0 1 (next_iteration m') l) as H.
  { split; [exact H1|].
    destruct (at_loop_test_inv _ _ _ _ Demo_short_lawful W H1) as (_ & S & HN & _).
    pose proof (fr_MaxIt _ _ S) as E. simpl in E. simpl in HN.
    simpl. rewrite HN, E. lia. }
  destruct (line_minimization_Ok l (next_iteration m')) as (m1 & lam & fm & uh & Hl).
  exists (next_iteration m'), l, m1, (Ok (lam, fm, uh)).
  split; [exact H|]. split; [exact Hl|].
  destruct (line_search_arguments m0 1 _ l m1 _ Demo_short_lawful W H Hl)
    as (Hc & Hf & _).
  split; [exact Hc|exact Hf].
Defined.

End short_second_trip.
